(** * watermark-gui: the main window of the watermarking application

    A shallow embedding of [src/watermark/gui/app.py]: the [MainWindow]
    class (button enablement, optimization gate, update check, batch
    processing) and the [DroppableQList] widget (de-duplicated, sorted file
    list fed by drag and drop).

    Python objects become records, attribute assignment becomes a record
    update, and every method is a computation in a state-and-exception monad
    [M]: the state survives an exception, as the attributes of a Python
    object do.  What the module imports from elsewhere (the watermarking
    generator, the tinify client, the updater, the translator, [pathlib],
    [os.stat], Qt's item ordering and event pump) is a field of the
    [Collaborators] class, so every theorem holds for all behaviours of these
    parts. *)

From Stdlib Require Import ZArith NArith List String Bool Lia Sorted.
From Stdlib Require OrderedTypeEx.
Import ListNotations.

Set Implicit Arguments.

Local Open Scope string_scope.
Local Open Scope list_scope.
Local Open Scope Z_scope.

(** ** Exceptions and outcomes *)

(** The exceptions that occur: [AttributeError] when an attribute is read
    before [__init__] created it, and whatever a collaborator raises.  Both
    derive from [Exception]. *)
Inductive exn : Type :=
| AttributeError (attr : string)
| CollaboratorError (what : string).

Inductive result (A : Type) : Type :=
| Ok (a : A)
| Raise (e : exn).

Arguments Ok {A} a.
Arguments Raise {A} e.

(** ** Generators

    [apply_watermarks] is consumed by a [for] statement, one [next()] at a
    time, and the loop body runs between two [next()] calls.  A generator is
    therefore a function of the environment at the time of the call; it
    stops, raises, or yields a pair together with the rest of itself. *)
Inductive GenStep (W P : Type) : Type :=
| StopIteration (w : W)
| GenRaise (e : exn) (w : W)
| Yield (path_orig : P) (path_new : option P) (w : W) (next : W -> GenStep W P).

Arguments StopIteration {W P} w.
Arguments GenRaise {W P} e w.
Arguments Yield {W P} path_orig path_new w next.

(** ** Settings: the global [CONF] object *)
Module CONF.
Record t : Type := mk {
  text : string;
  picture : string;
  optimize : bool;
  tinify_key : string;
  update : bool
}.
Definition set_text (v : string) (c : t) : t :=
  mk v (picture c) (optimize c) (tinify_key c) (update c).
Definition set_picture (v : string) (c : t) : t :=
  mk (text c) v (optimize c) (tinify_key c) (update c).
Definition set_optimize (v : bool) (c : t) : t :=
  mk (text c) (picture c) v (tinify_key c) (update c).
Definition set_tinify_key (v : string) (c : t) : t :=
  mk (text c) (picture c) (optimize c) v (update c).
End CONF.

(** ** Collaborators

    A call to the outside world takes the world and returns an outcome and
    the world after the call. *)
Definition Call (W A : Type) : Type := W -> result A * W.

Class Collaborators : Type := {
  (** file system, network and tinify account *)
  World : Type;
  (** [pathlib.Path] and its constructor *)
  Path : Type;
  mkPath : string -> Path;
  (** [QListWidgetItem.__lt__], the order used by a sorting list widget *)
  item_lt : string -> string -> bool;
  (** [..watermark.apply_watermarks(paths, text, picture)] *)
  apply_watermarks : list Path -> string -> string -> World -> GenStep World Path;
  (** [..optimizer.optimize(path)] and [..optimizer.validate_key(key)] *)
  optimize : Path -> Call World (option Path);
  validate_key : string -> Call World bool;
  (** [Path.unlink()] and [Path.stat().st_size]; a size is never negative *)
  unlink : Path -> Call World unit;
  st_size : Path -> Call World N;
  (** [QCoreApplication.processEvents()] (line 266): the pending events
      are taken to carry no input for this window, so the call changes the
      world only.  A handler that Qt dispatches from inside this call (a
      drop, a click or an edit made while a batch runs) is not modelled:
      what is stated of a loop body with its pump, or of a whole batch, is
      stated of runs without such input. *)
  processEvents : Call World unit;
  (** [..constants.WINDOWS], [..__version__], [Updater().check(version)] *)
  WINDOWS : bool;
  __version__ : string;
  updater_check : string -> Call World unit;
  (** [TR.get(key, values)], [sizeof_fmt(num, suffix)], [str(int)] and
      [tinify.compression_count] as handed to [TR.get] *)
  TR_get : string -> list string -> string;
  sizeof_fmt : Z -> string -> string;
  str : Z -> string;
  compression_count : World -> string
}.

(** ** The window *)

(** [self.stats], a dict with three integer entries. *)
Record Stats : Type := mkStats {
  count : Z;
  size_before : Z;
  size_after : Z
}.

(** The attributes of [MainWindow] that the methods read and write.
    [status_bar] is [None] until [_status_bar()] has created the attribute;
    [Some m] is a status bar showing [m].  [text] and [picture] are the
    contents of the two line edits, [paths_list] the rows of the
    [DroppableQList] from row 0 on, [buttons] whether the button box is
    enabled. *)
Record MainWindow : Type := mkWindow {
  stats : Stats;
  _use_optimization : option bool;
  _old_key : option string;
  _old_state : option bool;
  status_bar : option string;
  text : string;
  picture : string;
  paths_list : list string;
  buttons : bool
}.

Definition set_stats (v : Stats) (w : MainWindow) : MainWindow :=
  mkWindow v (_use_optimization w) (_old_key w) (_old_state w) (status_bar w)
           (text w) (picture w) (paths_list w) (buttons w).
Definition set_use_optimization (v : option bool) (w : MainWindow) : MainWindow :=
  mkWindow (stats w) v (_old_key w) (_old_state w) (status_bar w)
           (text w) (picture w) (paths_list w) (buttons w).
Definition set_old_key (v : option string) (w : MainWindow) : MainWindow :=
  mkWindow (stats w) (_use_optimization w) v (_old_state w) (status_bar w)
           (text w) (picture w) (paths_list w) (buttons w).
Definition set_old_state (v : option bool) (w : MainWindow) : MainWindow :=
  mkWindow (stats w) (_use_optimization w) (_old_key w) v (status_bar w)
           (text w) (picture w) (paths_list w) (buttons w).
Definition set_status_bar (v : option string) (w : MainWindow) : MainWindow :=
  mkWindow (stats w) (_use_optimization w) (_old_key w) (_old_state w) v
           (text w) (picture w) (paths_list w) (buttons w).
Definition set_text (v : string) (w : MainWindow) : MainWindow :=
  mkWindow (stats w) (_use_optimization w) (_old_key w) (_old_state w)
           (status_bar w) v (picture w) (paths_list w) (buttons w).
Definition set_picture (v : string) (w : MainWindow) : MainWindow :=
  mkWindow (stats w) (_use_optimization w) (_old_key w) (_old_state w)
           (status_bar w) (text w) v (paths_list w) (buttons w).
Definition set_paths_list (v : list string) (w : MainWindow) : MainWindow :=
  mkWindow (stats w) (_use_optimization w) (_old_key w) (_old_state w)
           (status_bar w) (text w) (picture w) v (buttons w).
Definition set_buttons (v : bool) (w : MainWindow) : MainWindow :=
  mkWindow (stats w) (_use_optimization w) (_old_key w) (_old_state w)
           (status_bar w) (text w) (picture w) (paths_list w) v.

(** The window before [__init__] has run: no attribute has a meaningful
    value yet.  Only [status_bar] is read before it is assigned. *)
Definition blank : MainWindow :=
  mkWindow (mkStats 0 0 0) None None None None "" "" [] true.

Section App.

Context {C : Collaborators}.

(** ** Calls made to collaborators, in program order

    The log is not a part of the program: it records which collaborator was
    called with which arguments (and what the generator yielded), so that
    "is never called" and "is deleted" can be stated. *)
Inductive Event : Type :=
| EvApplyWatermarks (paths : list Path) (text picture : string)
| EvYield (path_orig : Path) (path_new : option Path)
| EvValidateKey (key : string)
| EvOptimize (path : Path)
| EvUnlink (path : Path)
| EvStat (path : Path)
| EvProcessEvents
| EvUpdaterCheck (version : string).

(** ** Program state: the window, the settings, the world, the call log *)
Record State : Type := mkState {
  self : MainWindow;
  conf : CONF.t;
  world : World;
  calls : list Event
}.

Definition with_self (f : MainWindow -> MainWindow) (s : State) : State :=
  mkState (f (self s)) (conf s) (world s) (calls s).
Definition with_conf (f : CONF.t -> CONF.t) (s : State) : State :=
  mkState (self s) (f (conf s)) (world s) (calls s).
Definition with_world (w : World) (s : State) : State :=
  mkState (self s) (conf s) w (calls s).
Definition logged (e : Event) (s : State) : State :=
  mkState (self s) (conf s) (world s) (calls s ++ [e]).

(** ** The monad *)
Definition M (A : Type) : Type := State -> result A * State.

Definition ret {A} (a : A) : M A := fun s => (Ok a, s).

Definition bind {A B} (m : M A) (k : A -> M B) : M B :=
  fun s => match m s with
           | (Ok a, s') => k a s'
           | (Raise e, s') => (Raise e, s')
           end.

Definition raise {A} (e : exn) : M A := fun s => (Raise e, s).

(** [try: body / except Exception: handler] *)
Definition try_except {A} (body : M A) (handler : exn -> M A) : M A :=
  fun s => match body s with
           | (Ok a, s') => (Ok a, s')
           | (Raise e, s') => handler e s'
           end.

Definition get : M State := fun s => (Ok s, s).
Definition modify (f : State -> State) : M unit := fun s => (Ok tt, f s).

(** A collaborator call: logged, run on the current world. *)
Definition call {A} (e : Event) (c : Call World A) : M A :=
  fun s => let (r, w) := c (world s) in (r, with_world w (logged e s)).

End App.

Declare Scope monad_scope.
Delimit Scope monad_scope with monad.
Notation "x <- m ;; k" := (bind m (fun x => k))
  (at level 100, m at next level, right associativity) : monad_scope.
Notation "m ;; k" := (bind m (fun _ => k))
  (at level 100, right associativity) : monad_scope.

Section Program.

Context {C : Collaborators}.
Local Open Scope monad_scope.

(** ** Python truthiness of strings *)

(** [bool(s)] for a string. *)
Definition truthy (s : string) : bool := negb (String.eqb s "").

(** [a or b] for two strings: [a] when it is non-empty, else [b]. *)
Definition str_or (a b : string) : string := if truthy a then a else b.

(** ** [DroppableQList] *)

(** [self.item(i).text()] *)
Definition item_text (items : list string) (i : nat) : string := nth i items "".

(** [DroppableQList.exists]:
    [any(self.item(i).text() == path for i in range(self.count()))] *)
Definition exists_ (items : list string) (path : string) : bool :=
  existsb (fun i => String.eqb (item_text items i) path) (seq 0 (List.length items)).

(** Where Qt puts a new row of a list widget with sorting enabled
    ([setSortingEnabled(True)], ascending): in front of the first row that
    is not less than the new item. *)
Fixpoint sorted_insert (label : string) (items : list string) : list string :=
  match items with
  | [] => [label]
  | it :: rest =>
      if item_lt it label then it :: sorted_insert label rest
      else label :: it :: rest
  end.

(** [self.addItem(path)] *)
Definition addItem (path : string) (items : list string) : list string :=
  sorted_insert path items.

(** The loop of [dropEvent] over [event.mimeData().urls()], each url given
    by its [toLocalFile()]. *)
Fixpoint drop_urls (urls : list string) (items : list string) : list string :=
  match urls with
  | [] => items
  | path :: rest =>
      if exists_ items path then drop_urls rest items
      else drop_urls rest (addItem path items)
  end.

(** ** [MainWindow] *)

(** [MainWindow.button_ok_state] *)
Definition button_ok_state : M unit :=
  s <- get;;
  let w := self s in
  modify (with_self (set_buttons
    (truthy (str_or (text w) (picture w)) && (0 <? List.length (paths_list w))%nat))).

(** [DroppableQList.dropEvent].  The guard [if not event.mimeData().hasUrls]
    tests a bound method, which is always true, so it never returns early. *)
Definition dropEvent (urls : list string) : M unit :=
  modify (with_self (fun w => set_paths_list (drop_urls urls (paths_list w)) w));;
  button_ok_state.

(** The right-hand side of line 109:
    [CONF.optimize and validate_key(self._old_key)]. *)
Definition evaluate_gate (state : bool) (key : string) : M bool :=
  if state then call (EvValidateKey key) (validate_key key) else ret false.

(** The body of the [if] of [use_optimization]. *)
Definition refresh_gate : M bool :=
  s <- get;;
  let key := CONF.tinify_key (conf s) in
  let state := CONF.optimize (conf s) in
  modify (with_self (set_old_key (Some key)));;
  modify (with_self (set_old_state (Some state)));;
  v <- evaluate_gate state key;;
  modify (with_self (set_use_optimization (Some v)));;
  ret v.

(** [x != y] where [y] may be [None]. *)
Definition differs {A} (eqb : A -> A -> bool) (x : A) (y : option A) : bool :=
  match y with
  | Some v => negb (eqb x v)
  | None => true
  end.

(** [MainWindow.use_optimization] (a property). *)
Definition use_optimization : M bool :=
  s <- get;;
  match _use_optimization (self s) with
  | None => refresh_gate
  | Some cached =>
      if differs String.eqb (CONF.tinify_key (conf s)) (_old_key (self s))
         || differs Bool.eqb (CONF.optimize (conf s)) (_old_state (self s))
      then refresh_gate
      else ret cached
  end.

(** [self.status_bar.showMessage(msg)] *)
Definition showMessage (msg : string) : M unit :=
  s <- get;;
  match status_bar (self s) with
  | None => raise (AttributeError "status_bar")
  | Some _ => modify (with_self (set_status_bar (Some msg)))
  end.

(** The statistics message built by [_status_msg] when [msg] is empty. *)
Definition statistics_msg : M string :=
  s <- get;;
  let st := stats (self s) in
  let win := size_before st - size_after st in
  let values := [str (count st); sizeof_fmt win (TR_get "BYTE" [])] in
  let msg := TR_get "STATISTICS" values in
  opt <- use_optimization;;
  if opt then
    s' <- get;;
    ret (String.append msg (TR_get "STATISTICS_TINIFY" [compression_count (world s')]))
  else ret msg.

(** [MainWindow._status_msg] *)
Definition _status_msg (msg : string) : M unit :=
  msg' <- (if truthy msg then ret msg else statistics_msg);;
  showMessage msg'.

(** [MainWindow._check_for_update] *)
Definition _check_for_update : M unit :=
  if negb WINDOWS then ret tt
  else
    try_except
      (call (EvUpdaterCheck __version__) (updater_check __version__))
      (fun _ => _status_msg (TR_get "UPDATE_ERROR" [])).

(** [MainWindow._status_bar] *)
Definition _status_bar : M unit :=
  modify (with_self (set_status_bar (Some ""))).

(** [MainWindow._window]: the line edits start with the saved settings, the
    list starts empty and a new button box is enabled. *)
Definition _window : M unit :=
  s <- get;;
  modify (with_self (set_text (CONF.text (conf s))));;
  modify (with_self (set_picture (CONF.picture (conf s))));;
  modify (with_self (set_paths_list []));;
  modify (with_self (set_buttons true)).

(** [MainWindow.__init__] (the toolbar and the timer hold no state). *)
Definition __init__ : M unit :=
  modify (with_self (set_stats (mkStats 0 0 0)));;
  modify (with_self (set_use_optimization None));;
  modify (with_self (set_old_key None));;
  modify (with_self (set_old_state None));;
  s <- get;;
  (if CONF.update (conf s) then _check_for_update else ret tt);;
  _status_bar;;
  _status_msg "";;
  _window;;
  button_ok_state.

(** The state in which [MainWindow()] is called. *)
Definition startup (c : CONF.t) (w : World) : State := mkState blank c w [].

Definition add_count (st : Stats) : Stats :=
  mkStats (count st + 1) (size_before st) (size_after st).
Definition add_size_before (n : N) (st : Stats) : Stats :=
  mkStats (count st) (size_before st + Z.of_N n) (size_after st).
Definition add_size_after (n : N) (st : Stats) : Stats :=
  mkStats (count st) (size_before st) (size_after st + Z.of_N n).

Definition update_stats (f : Stats -> Stats) : M unit :=
  modify (with_self (fun w => set_stats (f (stats w)) w)).

(** Lines 251-257: the optimization step; returns the path to account for. *)
Definition optimize_step (path_new : Path) : M Path :=
  opt <- use_optimization;;
  if opt then
    path_new_optimized <- call (EvOptimize path_new) (optimize path_new);;
    match path_new_optimized with
    | Some p => call (EvUnlink path_new) (unlink path_new);; ret p
    | None => ret path_new
    end
  else ret path_new.

(** The body of the [for] loop of [_process_all] (lines 247-266). *)
Definition loop_body (path_orig : Path) (path_new : option Path) : M unit :=
  match path_new with
  | None => ret tt
  | Some path_new =>
      path_new <- optimize_step path_new;;
      update_stats add_count;;
      before <- call (EvStat path_orig) (st_size path_orig);;
      update_stats (add_size_before before);;
      after <- call (EvStat path_new) (st_size path_new);;
      update_stats (add_size_after after);;
      _status_msg "";;
      call EvProcessEvents processEvents
  end.

(** The [for] statement over the generator: each step of the generator runs
    in the world left by the previous loop body. *)
Fixpoint for_loop (step : GenStep World Path) (s : State) : result unit * State :=
  match step with
  | StopIteration w => (Ok tt, with_world w s)
  | GenRaise e w => (Raise e, with_world w s)
  | Yield path_orig path_new w next =>
      match loop_body path_orig path_new
                      (with_world w (logged (EvYield path_orig path_new) s)) with
      | (Ok _, s') => for_loop (next (world s')) s'
      | (Raise e, s') => (Raise e, s')
      end
  end.

(** Line 246: [for path_orig, path_new in apply_watermarks(paths, text, picture)];
    the generator starts in the world as it is when the loop is entered. *)
Definition for_each_watermarked (paths : list Path) (txt pic : string) : M unit :=
  fun s => for_loop (apply_watermarks paths txt pic (world s)) s.

(** Lines 239-241: [[Path(self.paths_list.item(i).text()) for i in range(count)]] *)
Definition collect_paths (items : list string) : list Path :=
  map (fun i => mkPath (item_text items i)) (seq 0 (List.length items)).

(** [MainWindow._process_all] *)
Definition _process_all : M unit :=
  s <- get;;
  modify (with_conf (CONF.set_text (text (self s))));;
  modify (with_conf (CONF.set_picture (picture (self s))));;
  let paths := collect_paths (paths_list (self s)) in
  match paths with
  | [] => ret tt
  | _ :: _ =>
      c <- get;;
      let txt := CONF.text (conf c) in
      let pic := CONF.picture (conf c) in
      modify (logged (EvApplyWatermarks paths txt pic));;
      for_each_watermarked paths txt pic;;
      modify (with_self (set_paths_list []));;
      button_ok_state
  end.

(** [MainWindow._select_one_file], for the path the file dialog returned. *)
Definition _select_one_file (path : string) : M unit :=
  if truthy path then
    modify (with_self (set_picture path));;
    modify (with_conf (CONF.set_picture path))
  else ret tt.

(** ** What can happen to a constructed window *)
Inductive UIEvent : Type :=
| Dropped (urls : list string)
| OkClicked
| TextEdited (s : string)
| PictureEdited (s : string)
| FileChosen (path : string)
| SettingsChanged (c : CONF.t)
| TimerTick.

(** The handler of each event.  A disabled button box emits no click; the
    line edits and the settings dialog have no handler in this module. *)
Definition handle (e : UIEvent) : M unit :=
  match e with
  | Dropped urls => dropEvent urls
  | OkClicked =>
      s <- get;;
      if buttons (self s) then _process_all else ret tt
  | TextEdited v => modify (with_self (set_text v))
  | PictureEdited v => modify (with_self (set_picture v))
  | FileChosen path => _select_one_file path
  | SettingsChanged c => modify (with_conf (fun _ => c))
  | TimerTick => ret tt
  end.

(** A session: events handled one after the other until one raises. *)
Fixpoint session (evs : list UIEvent) : M unit :=
  match evs with
  | [] => ret tt
  | e :: rest => handle e;; session rest
  end.

End Program.

(** * Vocabulary of the properties *)

Section Vocabulary.

Context {C : Collaborators}.

(** [respects R m]: whatever the outcome of [m], exception or not, the
    states before and after are related by [R]. *)
Definition respects (R : State -> State -> Prop) {A} (m : M A) : Prop :=
  forall s r s', m s = (r, s') -> R s s'.

Definition stats_le (a b : Stats) : Prop :=
  count a <= count b /\ size_before a <= size_before b /\ size_after a <= size_after b.

(** The three counters did not decrease. *)
Definition stats_grow (s s' : State) : Prop :=
  stats_le (stats (self s)) (stats (self s')).

(** The three counters are unchanged. *)
Definition stats_kept (s s' : State) : Prop :=
  stats (self s') = stats (self s).

(** [count] is unchanged. *)
Definition count_kept (s s' : State) : Prop :=
  count (stats (self s')) = count (stats (self s)).

(** The settings are unchanged. *)
Definition conf_kept (s s' : State) : Prop := conf s' = conf s.

(** The calls made are all of the kind [P]. *)
Definition calls_only (P : Event -> Prop) (s s' : State) : Prop :=
  exists d, calls s' = calls s ++ d /\ Forall P d.

Definition is_validate (e : Event) : Prop :=
  match e with EvValidateKey _ => True | _ => False end.

Definition not_yield (e : Event) : Prop :=
  match e with EvYield _ _ => False | _ => True end.

Definition not_unlink (e : Event) : Prop :=
  match e with EvUnlink _ => False | _ => True end.

(** What follows [count += 1] in the loop body. *)
Definition account (path_orig path_new : Path) : M unit :=
  (before <- call (EvStat path_orig) (st_size path_orig);;
   update_stats (add_size_before before);;
   after <- call (EvStat path_new) (st_size path_new);;
   update_stats (add_size_after after);;
   _status_msg "";;
   call EvProcessEvents processEvents)%monad.

(** The rows of the list widget are unchanged. *)
Definition queue_kept (s s' : State) : Prop :=
  paths_list (self s') = paths_list (self s).

(** A property of the rows that holds before holds after. *)
Definition queue_keeps (P : list string -> Prop) (s s' : State) : Prop :=
  P (paths_list (self s)) -> P (paths_list (self s')).

(** The number of pairs with a new path among the logged yields. *)
Fixpoint produced (d : list Event) : Z :=
  match d with
  | [] => 0
  | EvYield _ (Some _) :: rest => 1 + produced rest
  | _ :: rest => produced rest
  end.

(** The gate has been evaluated, and for the key and toggle that [CONF]
    holds now. *)
Definition up_to_date (s : State) : Prop :=
  _use_optimization (self s) <> None /\
  _old_key (self s) = Some (CONF.tinify_key (conf s)) /\
  _old_state (self s) = Some (CONF.optimize (conf s)).

(** Reading the gate once per element of [keys], the API key being set to
    that element before the read. *)
Fixpoint gate_reads (keys : list string) : M unit :=
  match keys with
  | [] => ret tt
  | key :: rest =>
      (modify (with_conf (CONF.set_tinify_key key));;
       use_optimization;;
       gate_reads rest)%monad
  end.

(** No row is less than a row above it. *)
Definition rows_sorted (items : list string) : Prop :=
  StronglySorted (fun above below => item_lt below above = false) items.

(** The status bar attribute is as it was. *)
Definition bar_kept (s s' : State) : Prop :=
  status_bar (self s') = status_bar (self s).

(** A collaborator call that returns in every world. *)
Definition call_returns {A} (c : Call World A) : Prop :=
  forall w, exists a w', c w = (Ok a, w').

(** A generator that raises in no world. *)
Inductive gen_returns : GenStep World Path -> Prop :=
| returns_stop (w : World) : gen_returns (StopIteration w)
| returns_yield (o : Path) (n : option Path) (w : World) next :
    (forall w', gen_returns (next w')) -> gen_returns (Yield o n w next).

(** The status bar has been created. *)
Definition has_bar (s : State) : Prop := status_bar (self s) <> None.

(** [completes m]: on a window with a status bar, [m] returns, and the
    status bar is still there. *)
Definition completes {A} (m : M A) : Prop :=
  forall s, has_bar s -> exists a s', m s = (Ok a, s') /\ has_bar s'.

End Vocabulary.

(** * A concrete set of collaborators

    A small file system (paths with sizes) and collaborators acting on it,
    used to run the methods on concrete inputs. *)
Module Demo.

Definition FS : Type := list (string * N).

Fixpoint size_of (p : string) (fs : FS) : option N :=
  match fs with
  | [] => None
  | (q, n) :: rest => if String.eqb p q then Some n else size_of p rest
  end.

Fixpoint remove_file (p : string) (fs : FS) : FS :=
  match fs with
  | [] => []
  | (q, n) :: rest =>
      if String.eqb p q then remove_file p rest else (q, n) :: remove_file p rest
  end.

Definition not_found {A} (fs : FS) : result A * FS :=
  (Raise (CollaboratorError "FileNotFoundError"), fs).

(** A watermarker that skips the paths that are not files and writes
    [path-w], ten bytes larger, for the others. *)
Fixpoint watermark_all (paths : list string) (fs : FS) : GenStep FS string :=
  match paths with
  | [] => StopIteration fs
  | p :: rest =>
      match size_of p fs with
      | Some n =>
          let out := String.append p "-w" in
          Yield p (Some out) ((out, (n + 10)%N) :: fs) (watermark_all rest)
      | None => Yield p None fs (watermark_all rest)
      end
  end.

(** An optimizer that writes [path-o] of half the size, and declines files
    smaller than 100 bytes. *)
Definition shrink (p : string) (fs : FS) : result (option string) * FS :=
  match size_of p fs with
  | Some n =>
      if (n <? 100)%N then (Ok None, fs)
      else (Ok (Some (String.append p "-o")), (String.append p "-o", N.div2 n) :: fs)
  | None => not_found fs
  end.

Definition collaborators (windows : bool) : Collaborators := {|
  World := FS;
  Path := string;
  mkPath := fun s => s;
  item_lt := String.ltb;
  apply_watermarks := fun paths _ _ => watermark_all paths;
  optimize := shrink;
  validate_key := fun key fs => (Ok (String.eqb key "valid-key"), fs);
  unlink := fun p fs =>
    match size_of p fs with
    | Some _ => (Ok tt, remove_file p fs)
    | None => not_found fs
    end;
  st_size := fun p fs =>
    match size_of p fs with
    | Some n => (Ok n, fs)
    | None => not_found fs
    end;
  processEvents := fun fs => (Ok tt, fs);
  WINDOWS := windows;
  __version__ := "1.0";
  updater_check := fun _ fs => (Raise (CollaboratorError "no network"), fs);
  TR_get := fun key values => String.concat " " (key :: values);
  sizeof_fmt := fun _ suffix => suffix;
  str := fun _ => "n";
  compression_count := fun _ => "0"
|}.

Definition settings (optimize : bool) : CONF.t :=
  CONF.mk "sample" "" optimize "valid-key" true.

(** A constructed window with [items] in the list and the OK button
    enabled; [a.jpg] (1000 bytes) and [c.jpg] (50 bytes) exist, [b.png]
    does not. *)
Definition window (items : list string) : MainWindow :=
  mkWindow (mkStats 0 0 0) None None None (Some "") "sample" "" items true.

Definition files : FS := [("a.jpg", 1000%N); ("c.jpg", 50%N)].

Definition state (optimize : bool) (items : list string)
  : @State (collaborators false) :=
  @mkState (collaborators false) (window items) (settings optimize) files [].

(** The collaborators off the update platform. *)
Definition demo : Collaborators := collaborators false.

(** The state in which the loop body runs for [a.jpg]: the generator has
    written [a.jpg-w]. *)
Definition after_first_yield : @State demo :=
  @mkState demo (window ["a.jpg"; "b.png"]) (settings true)
           (("a.jpg-w", 1010%N) :: files) [].

End Demo.

(** * Vocabulary of the further properties *)

Section MoreVocabulary.

Context {C : Collaborators}.

(** Whether a computation returned or raised. *)
Definition returned {A} (r : result A) : bool :=
  match r with
  | Ok _ => true
  | Raise _ => false
  end.

(** [observes R m]: the states before and after [m] are related by [R],
    which is told whether [m] returned. *)
Definition observes (R : State -> bool -> State -> Prop) {A} (m : M A) : Prop :=
  forall s r s', m s = (r, s') -> R s (returned r) s'.

(** A property of the state that holds before holds after. *)
Definition state_keeps (I : State -> Prop) (s s' : State) : Prop := I s -> I s'.

(** A property of the state that holds before holds after a computation
    that returned. *)
Definition kept_on_return (I : State -> Prop) (s : State) (ok : bool) (s' : State)
  : Prop :=
  ok = true -> I s -> I s'.

(** The cached gate is not true for a toggle that was off. *)
Definition gate_sound (s : State) : Prop :=
  _use_optimization (self s) = Some true -> _old_state (self s) = Some true.

(** An enabled button box has rows to work on. *)
Definition button_needs_rows (s : State) : Prop :=
  buttons (self s) = true -> paths_list (self s) <> [].

(** The widgets are as they were: rows, button state and both fields. *)
Definition widgets_kept (s s' : State) : Prop :=
  paths_list (self s') = paths_list (self s) /\
  buttons (self s') = buttons (self s) /\
  text (self s') = text (self s) /\
  picture (self s') = picture (self s).

(** The settings the gate depends on, and [CONF.update], are as they were. *)
Definition gate_settings_kept (s s' : State) : Prop :=
  CONF.tinify_key (conf s') = CONF.tinify_key (conf s) /\
  CONF.optimize (conf s') = CONF.optimize (conf s) /\
  CONF.update (conf s') = CONF.update (conf s).

(** The three attributes behind [use_optimization] are as they were. *)
Definition gate_kept (s s' : State) : Prop :=
  _use_optimization (self s') = _use_optimization (self s) /\
  _old_key (self s') = _old_key (self s) /\
  _old_state (self s') = _old_state (self s).

(** The number of [validate_key] calls in a log. *)
Fixpoint validations (d : list Event) : nat :=
  match d with
  | [] => 0
  | EvValidateKey _ :: rest => S (validations rest)
  | _ :: rest => validations rest
  end.

(** Calls that neither optimize, nor unlink, nor validate the key. *)
Definition is_plain (e : Event) : Prop :=
  match e with
  | EvOptimize _ | EvUnlink _ | EvValidateKey _ => False
  | _ => True
  end.

(** With the toggle off and a sound gate before: the same holds after, and
    the calls made in between are plain. *)
Definition quiet_while_off (s s' : State) : Prop :=
  CONF.optimize (conf s) = false /\ gate_sound s ->
  CONF.optimize (conf s') = false /\ gate_sound s' /\ calls_only is_plain s s'.

(** At most one [validate_key] call; none at all, and the gate still up to
    date, when it was up to date before; and after the one call of a
    computation that returned, the gate is up to date. *)
Definition validates_once (s : State) (ok : bool) (s' : State) : Prop :=
  exists d,
    calls s' = calls s ++ d /\
    CONF.tinify_key (conf s') = CONF.tinify_key (conf s) /\
    CONF.optimize (conf s') = CONF.optimize (conf s) /\
    (up_to_date s -> validations d = 0%nat /\ up_to_date s') /\
    (validations d <= 1)%nat /\
    (ok = true -> validations d = 1%nat -> up_to_date s').

(** The first part of every statistics message (lines 152-154). *)
Definition stats_text (st : Stats) : string :=
  TR_get "STATISTICS"
         [str (count st);
          sizeof_fmt (size_before st - size_after st) (TR_get "BYTE" [])].

(** The status bar shows the statistics as they are now. *)
Definition shows_stats (s : State) : Prop :=
  exists suffix,
    status_bar (self s) = Some (String.append (stats_text (stats (self s))) suffix).

(** [count] grew by at most the number of yields with a new path, and by
    exactly that number when the computation returned. *)
Definition counted (s : State) (ok : bool) (s' : State) : Prop :=
  exists d,
    calls s' = calls s ++ d /\
    count (stats (self s')) <= count (stats (self s)) + produced d /\
    (ok = true -> count (stats (self s')) = count (stats (self s)) + produced d).

(** A call of the loop body for the new path [n]: it optimizes or unlinks
    nothing but [n]. *)
Definition touches_only (n : Path) (e : Event) : Prop :=
  match e with
  | EvOptimize p | EvUnlink p => p = n
  | EvYield _ _ => False
  | _ => True
  end.

(** Every path that was optimized or unlinked had been yielded as a new
    path. *)
Definition only_outputs_touched (d : list Event) : Prop :=
  forall p, In (EvOptimize p) d \/ In (EvUnlink p) d ->
            exists o, In (EvYield o (Some p)) d.

(** Lines 250-265: the loop body for a pair with a new path, up to the
    call of the event pump (line 266), which is its last statement. *)
Definition before_pump (path_orig path_new : Path) : M unit :=
  (path_new <- optimize_step path_new;;
   update_stats add_count;;
   before <- call (EvStat path_orig) (st_size path_orig);;
   update_stats (add_size_before before);;
   after <- call (EvStat path_new) (st_size path_new);;
   update_stats (add_size_after after);;
   _status_msg "")%monad.

(** The world in which [__init__] reads the gate: after the update check,
    when there is one. *)
Definition world_after_update (c : CONF.t) (w : World) : World :=
  if CONF.update c && WINDOWS then snd (updater_check __version__ w) else w.

End MoreVocabulary.

(** Collaborators without network: as [Demo.demo], but [validate_key]
    raises. *)
Module Offline.

Definition collaborators : Collaborators := {|
  World := Demo.FS;
  Path := string;
  mkPath := fun s => s;
  item_lt := String.ltb;
  apply_watermarks := fun paths _ _ => Demo.watermark_all paths;
  optimize := Demo.shrink;
  validate_key := fun _ fs => (Raise (CollaboratorError "no network"), fs);
  unlink := @unlink Demo.demo;
  st_size := @st_size Demo.demo;
  processEvents := fun fs => (Ok tt, fs);
  WINDOWS := false;
  __version__ := "1.0";
  updater_check := fun _ fs => (Ok tt, fs);
  TR_get := fun key values => String.concat " " (key :: values);
  sizeof_fmt := fun _ suffix => suffix;
  str := fun _ => "n";
  compression_count := fun _ => "0"
|}.

(** A constructed window whose gate was evaluated, with value [true], for
    the key [old-key]; the settings now hold [valid-key]. *)
Definition state (items : list string) : @State collaborators :=
  @mkState collaborators
    (mkWindow (mkStats 0 0 0) (Some true) (Some "old-key") (Some true)
              (Some "") "sample" "" items true)
    (Demo.settings true) Demo.files [].

End Offline.

(** * Properties *)

Section Lists.

Context {C : Collaborators}.

Lemma truthy_iff (s : string) : truthy s = true <-> s <> "".
Proof.
  unfold truthy. destruct (String.eqb_spec s ""); simpl; split; congruence.
Qed.

Lemma truthy_str_or (a b : string) :
  truthy (str_or a b) = true <-> a <> "" \/ b <> "".
Proof.
  unfold str_or. destruct (truthy a) eqn:Ha.
  - rewrite Ha. apply truthy_iff in Ha. tauto.
  - rewrite truthy_iff. split; [tauto|].
    intros [H|H]; [|exact H].
    apply truthy_iff in H. congruence.
Qed.

Lemma map_item_text (items : list string) :
  map (item_text items) (seq 0 (List.length items)) = items.
Proof.
  unfold item_text. induction items as [|it rest IH]; simpl; [reflexivity|].
  f_equal. rewrite <- seq_shift, map_map. exact IH.
Qed.

Lemma collect_paths_map (items : list string) :
  collect_paths items = map mkPath items.
Proof.
  unfold collect_paths.
  rewrite <- (map_map (item_text items) mkPath). now rewrite map_item_text.
Qed.

Lemma exists_In (items : list string) (path : string) :
  exists_ items path = true <-> In path items.
Proof.
  unfold exists_. rewrite existsb_exists. split.
  - intros (i & Hi & He). apply in_seq in Hi. apply String.eqb_eq in He.
    subst path. apply nth_In. lia.
  - intros H. destruct (In_nth items path "" H) as (i & Hi & He).
    exists i. split; [apply in_seq; lia|]. now apply String.eqb_eq.
Qed.

Lemma sorted_insert_In (x y : string) (items : list string) :
  In y (sorted_insert x items) <-> y = x \/ In y items.
Proof.
  induction items as [|it rest IH]; simpl.
  - intuition congruence.
  - destruct (item_lt it x); simpl; rewrite ?IH; intuition congruence.
Qed.

Lemma sorted_insert_NoDup (x : string) (items : list string) :
  ~ In x items -> NoDup items -> NoDup (sorted_insert x items).
Proof.
  induction items as [|it rest IH]; simpl; intros Hx Hnd.
  - constructor; [easy|constructor].
  - inversion Hnd as [|? ? Hit Hrest]; subst.
    destruct (item_lt it x).
    + constructor.
      * rewrite sorted_insert_In. intuition congruence.
      * apply IH; tauto.
    + constructor; [simpl; tauto|exact Hnd].
Qed.

Lemma drop_urls_present (urls items : list string) :
  Forall (fun u => In u items) urls -> drop_urls urls items = items.
Proof.
  induction 1 as [|u rest Hu _ IH]; simpl; [reflexivity|].
  apply exists_In in Hu. now rewrite Hu.
Qed.

Lemma drop_urls_In (urls items : list string) (y : string) :
  In y (drop_urls urls items) <-> In y urls \/ In y items.
Proof.
  revert items. induction urls as [|u rest IH]; simpl; intros items.
  - tauto.
  - destruct (exists_ items u) eqn:He; rewrite IH.
    + apply exists_In in He. intuition congruence.
    + unfold addItem. rewrite sorted_insert_In. intuition congruence.
Qed.

End Lists.

(** ** Relating the state before and after a computation *)

Section Frames.

Context {C : Collaborators}.

Lemma bind_inv {A B} (m : M A) (k : A -> M B) s r s' :
  bind m k s = (r, s') ->
  (exists a s1, m s = (Ok a, s1) /\ k a s1 = (r, s')) \/
  (exists e, m s = (Raise e, s') /\ r = Raise e).
Proof.
  unfold bind. destruct (m s) as [[a|e] s1]; intros H.
  - left. now exists a, s1.
  - right. exists e. now inversion H.
Qed.

Lemma bind_ok {A B} (m : M A) (k : A -> M B) s a s1 :
  m s = (Ok a, s1) -> bind m k s = k a s1.
Proof. unfold bind. now intros ->. Qed.

Section Rules.

Variable R : State -> State -> Prop.
Hypothesis R_refl : forall s, R s s.
Hypothesis R_trans : forall s1 s2 s3, R s1 s2 -> R s2 s3 -> R s1 s3.

Lemma respects_ret {A} (a : A) : respects R (ret a).
Proof. intros s r s' H. inversion H. apply R_refl. Qed.

Lemma respects_raise {A} (e : exn) : respects R (@raise _ A e).
Proof. intros s r s' H. inversion H. apply R_refl. Qed.

Lemma respects_get : respects R get.
Proof. intros s r s' H. inversion H. apply R_refl. Qed.

Lemma respects_modify (f : State -> State) :
  (forall s, R s (f s)) -> respects R (modify f).
Proof. intros Hf s r s' H. inversion H. apply Hf. Qed.

Lemma respects_call {A} (e : Event) (c : Call World A) :
  (forall s w, R s (with_world w (logged e s))) -> respects R (call e c).
Proof.
  intros Hc s r s'. unfold call. destruct (c (world s)) as [r0 w].
  intros H. inversion H. apply Hc.
Qed.

Lemma respects_bind {A B} (m : M A) (k : A -> M B) :
  respects R m -> (forall a, respects R (k a)) -> respects R (bind m k).
Proof.
  intros Hm Hk s r s' H.
  destruct (bind_inv _ _ _ H) as [(a & s1 & H1 & H2)|(e & H1 & _)].
  - eapply R_trans; [eapply Hm|eapply Hk]; eassumption.
  - eapply Hm; eassumption.
Qed.

Lemma respects_try {A} (body : M A) (handler : exn -> M A) :
  respects R body -> (forall e, respects R (handler e)) ->
  respects R (try_except body handler).
Proof.
  intros Hb Hh s r s'. unfold try_except.
  destruct (body s) as [[a|e] s1] eqn:E; intros H.
  - inversion H; subst. eapply Hb; eassumption.
  - eapply R_trans; [eapply Hb|eapply Hh]; eassumption.
Qed.

End Rules.

Lemma respects_and (R1 R2 : State -> State -> Prop) {A} (m : M A) :
  respects R1 m -> respects R2 m -> respects (fun s s' => R1 s s' /\ R2 s s') m.
Proof. intros H1 H2 s r s' H. split; [eapply H1|eapply H2]; eassumption. Qed.

(** *** The relations used below *)

Lemma stats_le_refl a : stats_le a a.
Proof. unfold stats_le. lia. Qed.

Lemma stats_le_trans a b c : stats_le a b -> stats_le b c -> stats_le a c.
Proof. unfold stats_le. lia. Qed.

Lemma stats_grow_refl s : stats_grow s s.
Proof. apply stats_le_refl. Qed.

Lemma stats_grow_trans s1 s2 s3 : stats_grow s1 s2 -> stats_grow s2 s3 -> stats_grow s1 s3.
Proof. apply stats_le_trans. Qed.

Lemma stats_kept_refl s : stats_kept s s.
Proof. reflexivity. Qed.

Lemma stats_kept_trans s1 s2 s3 : stats_kept s1 s2 -> stats_kept s2 s3 -> stats_kept s1 s3.
Proof. unfold stats_kept. congruence. Qed.

Lemma count_kept_refl s : count_kept s s.
Proof. reflexivity. Qed.

Lemma count_kept_trans s1 s2 s3 : count_kept s1 s2 -> count_kept s2 s3 -> count_kept s1 s3.
Proof. unfold count_kept. congruence. Qed.

Lemma conf_kept_refl s : conf_kept s s.
Proof. reflexivity. Qed.

Lemma conf_kept_trans s1 s2 s3 : conf_kept s1 s2 -> conf_kept s2 s3 -> conf_kept s1 s3.
Proof. unfold conf_kept. congruence. Qed.

Lemma calls_only_refl P s : calls_only P s s.
Proof. exists []. split; [now rewrite app_nil_r|constructor]. Qed.

Lemma calls_only_trans P s1 s2 s3 :
  calls_only P s1 s2 -> calls_only P s2 s3 -> calls_only P s1 s3.
Proof.
  intros (d1 & E1 & F1) (d2 & E2 & F2). exists (d1 ++ d2). split.
  - now rewrite E2, E1, app_assoc.
  - apply Forall_app. now split.
Qed.

Lemma calls_only_logged (P : Event -> Prop) e s w :
  P e -> calls_only P s (with_world w (logged e s)).
Proof. intros H. exists [e]. split; [reflexivity|]. now constructor. Qed.

Lemma calls_only_weaken (P Q : Event -> Prop) s s' :
  (forall e, P e -> Q e) -> calls_only P s s' -> calls_only Q s s'.
Proof.
  intros H (d & E & F). exists d. split; [exact E|].
  eapply Forall_impl; eassumption.
Qed.

End Frames.

Create HintDb frame.

#[export] Hint Resolve stats_grow_refl stats_grow_trans stats_kept_refl
  stats_kept_trans count_kept_refl count_kept_trans conf_kept_refl
  conf_kept_trans calls_only_refl calls_only_trans : frame.

(** One step of a frame proof: follow the structure of the computation. *)
Ltac frame_step :=
  match goal with
  | |- respects _ _ => solve [eauto with frame]
  | |- respects _ (bind _ _) => apply respects_bind; [eauto with frame | | intros]
  | |- respects _ (ret _) => apply respects_ret; eauto with frame
  | |- respects _ (raise _) => apply respects_raise; eauto with frame
  | |- respects _ get => apply respects_get; eauto with frame
  | |- respects _ (try_except _ _) =>
      apply respects_try; [eauto with frame | | intros]
  | |- respects _ (modify _) => apply respects_modify; intros
  | |- respects _ (call _ _) => apply respects_call; intros
  | |- respects _ (let _ := _ in _) => cbv zeta
  | |- respects _ (if ?b then _ else _) => destruct b
  | |- respects _ (match ?x with _ => _ end) => destruct x
  end.

Ltac frame := repeat frame_step.

(** ** What each method leaves alone *)

Section MethodFrames.

Context {C : Collaborators}.

Lemma calls_only_same (P : Event -> Prop) s s' :
  calls s' = calls s -> calls_only P s s'.
Proof. intros H. exists []. split; [now rewrite app_nil_r|constructor]. Qed.

Lemma stats_kept_grow s s' : stats_kept s s' -> stats_grow s s'.
Proof. unfold stats_kept, stats_grow. intros ->. apply stats_le_refl. Qed.

Lemma stats_kept_count s s' : stats_kept s s' -> count_kept s s'.
Proof. unfold stats_kept, count_kept. now intros ->. Qed.

Lemma respects_weaken (R1 R2 : State -> State -> Prop) {A} (m : M A) :
  (forall s s', R1 s s' -> R2 s s') -> respects R1 m -> respects R2 m.
Proof. intros H H1 s r s' E. eapply H, H1, E. Qed.

(** *** [button_ok_state] *)

Lemma button_ok_state_stats : respects stats_kept button_ok_state.
Proof. unfold button_ok_state. frame; reflexivity. Qed.

Lemma button_ok_state_conf : respects conf_kept button_ok_state.
Proof. unfold button_ok_state. frame; reflexivity. Qed.

Lemma button_ok_state_calls P : respects (calls_only P) button_ok_state.
Proof. unfold button_ok_state. frame; now apply calls_only_same. Qed.

(** *** [use_optimization] *)

Lemma use_optimization_stats : respects stats_kept use_optimization.
Proof. unfold use_optimization, refresh_gate, evaluate_gate. frame; reflexivity. Qed.

Lemma use_optimization_conf : respects conf_kept use_optimization.
Proof. unfold use_optimization, refresh_gate, evaluate_gate. frame; reflexivity. Qed.

Lemma use_optimization_calls : respects (calls_only is_validate) use_optimization.
Proof.
  unfold use_optimization, refresh_gate, evaluate_gate.
  frame; first [now apply calls_only_same | now apply calls_only_logged].
Qed.

End MethodFrames.

Section MoreFrames.

Context {C : Collaborators}.

Lemma use_optimization_calls_in (P : Event -> Prop) :
  (forall e, is_validate e -> P e) -> respects (calls_only P) use_optimization.
Proof.
  intros H. eapply respects_weaken; [|apply use_optimization_calls].
  intros s s'. now apply calls_only_weaken.
Qed.

(** *** [_status_msg] *)

Lemma status_msg_stats msg : respects stats_kept (_status_msg msg).
Proof.
  pose proof use_optimization_stats.
  unfold _status_msg, statistics_msg, showMessage. frame; reflexivity.
Qed.

Lemma status_msg_conf msg : respects conf_kept (_status_msg msg).
Proof.
  pose proof use_optimization_conf.
  unfold _status_msg, statistics_msg, showMessage. frame; reflexivity.
Qed.

Lemma status_msg_calls_in (P : Event -> Prop) msg :
  (forall e, is_validate e -> P e) -> respects (calls_only P) (_status_msg msg).
Proof.
  intros H. pose proof (use_optimization_calls_in _ H).
  unfold _status_msg, statistics_msg, showMessage.
  frame; now apply calls_only_same.
Qed.

(** *** The loop body *)

Lemma optimize_step_stats p : respects stats_kept (optimize_step p).
Proof.
  pose proof use_optimization_stats.
  unfold optimize_step. frame; reflexivity.
Qed.

Lemma optimize_step_calls p : respects (calls_only not_yield) (optimize_step p).
Proof.
  assert (respects (calls_only not_yield) use_optimization)
    by (apply use_optimization_calls_in; now intros []).
  unfold optimize_step. frame; now apply calls_only_logged.
Qed.

Lemma update_stats_grow f :
  (forall st, stats_le st (f st)) -> respects stats_grow (update_stats f).
Proof. intros H. unfold update_stats. frame. unfold stats_grow; simpl. apply H. Qed.

Lemma add_count_le st : stats_le st (add_count st).
Proof. unfold stats_le, add_count; simpl. lia. Qed.

Lemma add_size_before_le n st : stats_le st (add_size_before n st).
Proof. unfold stats_le, add_size_before; simpl. lia. Qed.

Lemma add_size_after_le n st : stats_le st (add_size_after n st).
Proof. unfold stats_le, add_size_after; simpl. lia. Qed.

Lemma loop_body_unfold path_orig path_new :
  loop_body path_orig (Some path_new) =
  (p <- optimize_step path_new;;
   update_stats add_count;;
   account path_orig p)%monad.
Proof. reflexivity. Qed.

Lemma account_grow o p : respects stats_grow (account o p).
Proof.
  assert (respects stats_grow (_status_msg ""))
    by (eapply respects_weaken; [apply stats_kept_grow|apply status_msg_stats]).
  unfold account, update_stats. frame; unfold stats_grow; simpl;
    first [apply stats_le_refl | apply add_size_before_le | apply add_size_after_le].
Qed.

Lemma account_count o p : respects count_kept (account o p).
Proof.
  assert (respects count_kept (_status_msg ""))
    by (eapply respects_weaken; [apply stats_kept_count|apply status_msg_stats]).
  unfold account, update_stats. frame; reflexivity.
Qed.

Lemma account_calls_in (P : Event -> Prop) o p :
  (forall e, is_validate e -> P e) -> P (EvStat o) -> P (EvStat p) ->
  P EvProcessEvents -> respects (calls_only P) (account o p).
Proof.
  intros H Ho Hp Hpe. pose proof (status_msg_calls_in P "" H).
  unfold account, update_stats.
  frame; first [now apply calls_only_same | now apply calls_only_logged].
Qed.

Lemma loop_body_grow o n : respects stats_grow (loop_body o n).
Proof.
  destruct n as [n|]; [|apply respects_ret, stats_grow_refl].
  pose proof account_grow.
  assert (respects stats_grow (optimize_step n))
    by (eapply respects_weaken; [apply stats_kept_grow|apply optimize_step_stats]).
  rewrite loop_body_unfold. unfold update_stats. frame.
  unfold stats_grow; simpl. apply add_count_le.
Qed.

Lemma loop_body_calls o n : respects (calls_only not_yield) (loop_body o n).
Proof.
  destruct n as [n|]; [|apply respects_ret, calls_only_refl].
  pose proof optimize_step_calls.
  assert (forall p, respects (calls_only not_yield) (account o p))
    by (intros p; apply account_calls_in; simpl; auto; now intros []).
  rewrite loop_body_unfold. unfold update_stats. frame. now apply calls_only_same.
Qed.

(** *** The [for] loop *)

Lemma for_loop_respects (R : State -> State -> Prop) :
  (forall s, R s s) ->
  (forall s1 s2 s3, R s1 s2 -> R s2 s3 -> R s1 s3) ->
  (forall s w, R s (with_world w s)) ->
  (forall s o n, R s (logged (EvYield o n) s)) ->
  (forall o n, respects R (loop_body o n)) ->
  forall step, respects R (for_loop step).
Proof.
  intros Hrefl Htrans Hw Hy Hb.
  induction step as [w|e w|o n w next IH]; intros s r s'; simpl.
  - intros H. inversion H. apply Hw.
  - intros H. inversion H. apply Hw.
  - destruct (loop_body o n _) as [[[]|e] s1] eqn:E; intros H.
    + apply IH in H. apply Hb in E.
      eapply Htrans; [|exact H]. eapply Htrans; [|exact E].
      eapply Htrans; [apply Hy|apply Hw].
    + inversion H; subst. apply Hb in E.
      eapply Htrans; [|exact E]. eapply Htrans; [apply Hy|apply Hw].
Qed.

Lemma for_loop_grow step : respects stats_grow (for_loop step).
Proof.
  apply for_loop_respects.
  - apply stats_grow_refl.
  - apply stats_grow_trans.
  - intros; apply stats_le_refl.
  - intros; apply stats_le_refl.
  - apply loop_body_grow.
Qed.

End MoreFrames.

(** ** The queue across a batch *)

Section QueueFrames.

Context {C : Collaborators}.

Lemma queue_kept_refl s : queue_kept s s.
Proof. reflexivity. Qed.

Lemma queue_kept_trans s1 s2 s3 : queue_kept s1 s2 -> queue_kept s2 s3 -> queue_kept s1 s3.
Proof. unfold queue_kept. congruence. Qed.

Lemma queue_keeps_refl P s : queue_keeps P s s.
Proof. now intros H. Qed.

Lemma queue_keeps_trans P s1 s2 s3 :
  queue_keeps P s1 s2 -> queue_keeps P s2 s3 -> queue_keeps P s1 s3.
Proof. unfold queue_keeps. auto. Qed.

Lemma queue_kept_keeps P s s' : queue_kept s s' -> queue_keeps P s s'.
Proof. unfold queue_kept, queue_keeps. now intros ->. Qed.

Lemma use_optimization_queue : respects queue_kept use_optimization.
Proof.
  unfold use_optimization, refresh_gate, evaluate_gate.
  frame; first [apply queue_kept_refl | apply queue_kept_trans | reflexivity].
Qed.

Lemma status_msg_queue msg : respects queue_kept (_status_msg msg).
Proof.
  pose proof use_optimization_queue.
  unfold _status_msg, statistics_msg, showMessage.
  frame; first [apply queue_kept_refl | apply queue_kept_trans | reflexivity].
Qed.

Lemma loop_body_queue o n : respects queue_kept (loop_body o n).
Proof.
  pose proof use_optimization_queue. pose proof (status_msg_queue "").
  unfold loop_body, optimize_step, update_stats.
  frame; first [apply queue_kept_refl | apply queue_kept_trans | reflexivity].
Qed.

Lemma for_loop_queue step : respects queue_kept (for_loop step).
Proof.
  apply for_loop_respects;
    first [apply queue_kept_refl | apply queue_kept_trans
          | apply loop_body_queue | reflexivity].
Qed.

End QueueFrames.

(** * More about the methods *)

Section Inversion.

Context {C : Collaborators}.

Lemma call_inv {A} (e : Event) (c : Call World A) s r s' :
  call e c s = (r, s') ->
  exists w, c (world s) = (r, w) /\ s' = with_world w (logged e s).
Proof.
  unfold call. destruct (c (world s)) as [r0 w]. intros H.
  inversion H; subst. now exists w.
Qed.

Lemma modify_inv (f : State -> State) s r s' :
  modify f s = (r, s') -> r = Ok tt /\ s' = f s.
Proof. intros H. now inversion H. Qed.

Lemma for_each_respects (R : State -> State -> Prop) paths txt pic :
  (forall step, respects R (for_loop step)) ->
  respects R (for_each_watermarked paths txt pic).
Proof. intros H s r s' E. eapply H, E. Qed.

End Inversion.

(** Split [H : bind m k s = (Ok _, s')] into the two successful halves. *)
Ltac split_bind H a s1 H1 :=
  let e := fresh "e" in
  let Hr := fresh "Hr" in
  apply bind_inv in H;
  destruct H as [(a & s1 & H1 & H) | (e & _ & Hr)]; [|discriminate Hr].

(** * The claims *)

Section Claims.

Context {C : Collaborators}.

(** What one call of [button_ok_state] writes: the button is enabled exactly
    when the text or the picture field is non-empty and the list has at
    least one row; the call returns and changes nothing but the button. *)
Lemma button_ok_state_rule (s : State) :
  let s' := snd (button_ok_state s) in
  fst (button_ok_state s) = Ok tt /\
  s' = with_self (set_buttons (buttons (self s'))) s /\
  (buttons (self s') = true <->
   (text (self s) <> "" \/ picture (self s) <> "") /\
   (0 < List.length (paths_list (self s)))%nat).
Proof.
  simpl. split; [reflexivity|]. split; [reflexivity|].
  rewrite andb_true_iff, truthy_str_or, Nat.ltb_lt. reflexivity.
Qed.

(** C1 (what the code does).  A call of [button_ok_state] leaves the
    button enabled exactly when the text or the picture field is non-empty
    and the list has a row.  But the button is written by that call only,
    which runs at the end of [__init__], of a drop and of a batch: editing
    a field or choosing a picture file leaves the button as it was.  An
    enabled button stays enabled when both fields are emptied, and a
    disabled one stays disabled when a picture is chosen, whatever the list
    holds. *)
Theorem button_stale_after_edit (s : State) (path : string) :
  (buttons (self (snd (button_ok_state s))) = true <->
   (text (self s) <> "" \/ picture (self s) <> "") /\
   (0 < List.length (paths_list (self s)))%nat) /\
  (buttons (self s) = true ->
   let s' := snd (session [TextEdited ""; PictureEdited ""] s) in
   buttons (self s') = true /\ text (self s') = "" /\ picture (self s') = "" /\
   paths_list (self s') = paths_list (self s)) /\
  (buttons (self s) = false -> path <> "" ->
   let s' := snd (handle (FileChosen path) s) in
   buttons (self s') = false /\ picture (self s') = path /\
   paths_list (self s') = paths_list (self s)).
Proof.
  split; [apply button_ok_state_rule|]. split.
  - intros Hb. simpl. now rewrite Hb.
  - intros Hb Hp. apply truthy_iff in Hp. simpl.
    unfold _select_one_file. rewrite Hp. simpl. now rewrite Hb.
Qed.

(** [_process_all] on an empty list. *)
Lemma process_all_empty (s : State) :
  paths_list (self s) = [] ->
  _process_all s =
  (Ok tt, with_conf (CONF.set_picture (picture (self s)))
            (with_conf (CONF.set_text (text (self s))) s)).
Proof.
  intros H. unfold _process_all, bind, get, modify. rewrite H. reflexivity.
Qed.

(** C10.  With an empty list, [_process_all] writes the two fields to
    [CONF.text] and [CONF.picture] and returns: the window (statistics,
    rows, button state, status bar), the other settings and the world are
    unchanged and no collaborator is called. *)
Theorem process_all_empty_queue (s : State) :
  paths_list (self s) = [] ->
  exists s',
    _process_all s = (Ok tt, s') /\
    CONF.text (conf s') = text (self s) /\
    CONF.picture (conf s') = picture (self s) /\
    CONF.optimize (conf s') = CONF.optimize (conf s) /\
    CONF.tinify_key (conf s') = CONF.tinify_key (conf s) /\
    CONF.update (conf s') = CONF.update (conf s) /\
    self s' = self s /\ world s' = world s /\ calls s' = calls s.
Proof.
  intros H. eexists. split; [now apply process_all_empty|].
  simpl. repeat split; reflexivity.
Qed.

Lemma collect_paths_nonempty (items : list string) :
  items <> [] -> exists p ps, collect_paths items = p :: ps.
Proof.
  rewrite collect_paths_map. destruct items as [|it rest]; [congruence|].
  intros _. simpl. eauto.
Qed.

(** [_process_all] on a non-empty list, step by step. *)
Lemma process_all_nonempty (s : State) :
  paths_list (self s) <> [] ->
  let s0 := with_conf (CONF.set_picture (picture (self s)))
              (with_conf (CONF.set_text (text (self s))) s) in
  let paths := map mkPath (paths_list (self s)) in
  let txt := text (self s) in
  let pic := picture (self s) in
  _process_all s =
  match for_loop (apply_watermarks paths txt pic (world s))
                 (logged (EvApplyWatermarks paths txt pic) s0) with
  | (Ok _, s1) => button_ok_state (with_self (set_paths_list []) s1)
  | (Raise e, s1) => (Raise e, s1)
  end.
Proof.
  intros H. destruct (collect_paths_nonempty H) as (p & ps & E).
  unfold _process_all, bind, get, modify. rewrite E, <- E, collect_paths_map.
  unfold for_each_watermarked. simpl.
  destruct (for_loop _ _) as [[[]|e] s1]; reflexivity.
Qed.

(** C3.  A batch run on a non-empty list that runs to its end leaves the
    list empty and the button state recomputed from the fields and the
    (now empty) list, which disables the button, whatever the generator
    yielded. *)
Theorem process_all_clears_queue (s s' : State) :
  paths_list (self s) <> [] ->
  _process_all s = (Ok tt, s') ->
  paths_list (self s') = [] /\
  buttons (self s') =
    (truthy (str_or (text (self s')) (picture (self s')))
     && (0 <? List.length (paths_list (self s')))%nat)%bool /\
  buttons (self s') = false.
Proof.
  intros H E. rewrite (process_all_nonempty s H) in E.
  destruct (for_loop _ _) as [[[]|e] s1]; [|discriminate].
  inversion E; subst; simpl. rewrite andb_false_r. auto.
Qed.

(** ** The list across a session *)

Lemma button_ok_state_queue : respects queue_kept button_ok_state.
Proof.
  unfold button_ok_state.
  frame; first [apply queue_kept_refl | apply queue_kept_trans | reflexivity].
Qed.

Lemma dropEvent_eq (urls : list string) (s : State) :
  dropEvent urls s =
  button_ok_state
    (with_self (set_paths_list (drop_urls urls (paths_list (self s)))) s).
Proof. reflexivity. Qed.

Section Rows.

(** A property of the rows that holds of the empty list and survives the
    insertion of a label that is not in the list yet. *)
Variable P : list string -> Prop.
Hypothesis P_nil : P [].
Hypothesis P_insert :
  forall x items, ~ In x items -> P items -> P (sorted_insert x items).

Lemma drop_urls_keeps (urls items : list string) :
  P items -> P (drop_urls urls items).
Proof.
  revert items. induction urls as [|u rest IH]; simpl; intros items Hp.
  - exact Hp.
  - destruct (exists_ items u) eqn:He; apply IH; [exact Hp|].
    apply P_insert; [|exact Hp]. rewrite <- exists_In. congruence.
Qed.

Lemma dropEvent_keeps urls : respects (queue_keeps P) (dropEvent urls).
Proof.
  intros s r s' E. rewrite dropEvent_eq in E.
  apply button_ok_state_queue in E. unfold queue_kept in E; simpl in E.
  intros Hp. rewrite E. now apply drop_urls_keeps.
Qed.

Lemma process_all_keeps : respects (queue_keeps P) _process_all.
Proof.
  intros s r s' E Hp.
  destruct (paths_list (self s)) as [|it rest] eqn:Eq.
  - rewrite (process_all_empty s Eq) in E. inversion E; subst. simpl.
    rewrite Eq. exact P_nil.
  - rewrite process_all_nonempty in E by congruence.
    destruct (for_loop _ _) as [[[]|e] s1] eqn:El.
    + apply button_ok_state_queue in E. rewrite E. simpl. exact P_nil.
    + inversion E; subst. apply for_loop_queue in El.
      rewrite El. simpl. now rewrite Eq.
Qed.

Lemma handle_keeps e : respects (queue_keeps P) (handle e).
Proof.
  destruct e as [urls| |v|v|path|c|]; simpl.
  - apply dropEvent_keeps.
  - intros s r s'. unfold bind, get. destruct (buttons (self s)).
    + apply process_all_keeps.
    + intros E. inversion E. apply queue_keeps_refl.
  - apply respects_modify. intros s H. exact H.
  - apply respects_modify. intros s H. exact H.
  - unfold _select_one_file. destruct (truthy path).
    + intros s r s' E. inversion E. intros H. exact H.
    + apply respects_ret, queue_keeps_refl.
  - apply respects_modify. intros s H. exact H.
  - apply respects_ret, queue_keeps_refl.
Qed.

End Rows.

Lemma session_respects (R : State -> State -> Prop) :
  (forall s, R s s) ->
  (forall s1 s2 s3, R s1 s2 -> R s2 s3 -> R s1 s3) ->
  (forall e, respects R (handle e)) ->
  forall evs, respects R (session evs).
Proof.
  intros Hrefl Htrans Hh. induction evs as [|e rest IH]; simpl.
  - now apply respects_ret.
  - apply respects_bind; auto.
Qed.

(** C4.  A drop event whose paths are all in the list already leaves the
    list as it is (same rows, same size); in particular dropping a path a
    second time changes nothing.  Hence a list without duplicates never gets
    one, whatever events follow. *)
Theorem dropped_paths_stay_unique :
  (forall s urls,
     Forall (fun u => In u (paths_list (self s))) urls ->
     exists s', dropEvent urls s = (Ok tt, s') /\
                paths_list (self s') = paths_list (self s)) /\
  (forall s path,
     let s1 := snd (dropEvent [path] s) in
     In path (paths_list (self s1)) /\
     paths_list (self (snd (dropEvent [path] s1))) = paths_list (self s1)) /\
  (forall s evs,
     NoDup (paths_list (self s)) ->
     NoDup (paths_list (self (snd (session evs s))))).
Proof.
  split; [|split].
  - intros s urls H. eexists. split.
    + unfold dropEvent, button_ok_state, bind, get, modify. reflexivity.
    + simpl. now apply drop_urls_present.
  - intros s path s1.
    assert (Hin : In path (paths_list (self s1))).
    { subst s1. rewrite dropEvent_eq.
      change (In path (drop_urls [path] (paths_list (self s)))).
      apply drop_urls_In. simpl. auto. }
    split; [exact Hin|].
    rewrite dropEvent_eq.
    change (drop_urls [path] (paths_list (self s1)) = paths_list (self s1)).
    apply drop_urls_present. now constructor.
  - intros s evs Hnd. destruct (session evs s) as [r s'] eqn:E. simpl.
    assert (Hk : respects (queue_keeps (@NoDup string)) (session evs)).
    { apply session_respects;
        [apply queue_keeps_refl | apply queue_keeps_trans | intros e].
      apply handle_keeps; [constructor|apply sorted_insert_NoDup]. }
    exact (Hk _ _ _ E Hnd).
Qed.

(** ** The statistics across a session *)

Lemma respects_kept_grow {A} (m : M A) :
  respects stats_kept m -> respects stats_grow m.
Proof. apply respects_weaken, stats_kept_grow. Qed.

Lemma process_all_grow : respects stats_grow _process_all.
Proof.
  assert (forall paths txt pic,
             respects stats_grow (for_each_watermarked paths txt pic))
    by (intros; apply for_each_respects, for_loop_grow).
  pose proof (respects_kept_grow button_ok_state_stats).
  unfold _process_all. frame; apply stats_le_refl.
Qed.

Lemma handle_grow e : respects stats_grow (handle e).
Proof.
  pose proof process_all_grow.
  pose proof (respects_kept_grow button_ok_state_stats).
  destruct e as [urls| |v|v|path|c|]; simpl;
    unfold dropEvent, _select_one_file; frame; apply stats_le_refl.
Qed.

Lemma check_for_update_stats : respects stats_kept _check_for_update.
Proof.
  pose proof status_msg_stats.
  unfold _check_for_update. frame; reflexivity.
Qed.

(** C8.  The three counters are zero when the window has been constructed,
    and they never decrease afterwards: not in a loop body, not in the
    handler of any event, hence not over a whole session.  They grow by 1
    ([count]) and by file sizes, which are not negative; nothing sets them
    back. *)
Theorem stats_never_decrease :
  (forall c w, stats (self (snd (__init__ (startup c w)))) = mkStats 0 0 0) /\
  (forall o n s, stats_grow s (snd (loop_body o n s))) /\
  (forall e s, stats_grow s (snd (handle e s))) /\
  (forall evs s, stats_grow s (snd (session evs s))).
Proof.
  split; [|split; [|split]].
  - intros c w. destruct (__init__ (startup c w)) as [r s'] eqn:E. simpl.
    unfold __init__ in E. apply bind_inv in E.
    destruct E as [(a & s1 & H1 & H2)|(e & H1 & _)]; [|discriminate H1].
    apply modify_inv in H1. destruct H1 as [_ ->].
    match type of H2 with
    | ?m _ = _ => assert (Hk : respects stats_kept m)
    end.
    { pose proof check_for_update_stats. pose proof status_msg_stats.
      pose proof button_ok_state_stats.
      unfold _status_bar, _window. frame; reflexivity. }
    apply Hk in H2. rewrite H2. reflexivity.
  - intros o n s. destruct (loop_body o n s) as [r s'] eqn:E.
    exact (@loop_body_grow C o n s r s' E).
  - intros e s. destruct (handle e s) as [r s'] eqn:E.
    exact (@handle_grow e s r s' E).
  - intros evs s. destruct (session evs s) as [r s'] eqn:E.
    exact (@session_respects stats_grow stats_grow_refl stats_grow_trans
             handle_grow evs s r s' E).
Qed.

(** ** Counting what a batch produced *)

Lemma produced_nonneg d : 0 <= produced d.
Proof.
  induction d as [|e rest IH]; [simpl; lia|].
  destruct e as [| ? [?|] | | | | | |]; cbn [produced]; lia.
Qed.

Lemma produced_app d1 d2 : produced (d1 ++ d2) = produced d1 + produced d2.
Proof.
  induction d1 as [|e rest IH]; [reflexivity|].
  destruct e as [| ? [?|] | | | | | |]; cbn [produced app]; lia.
Qed.

Lemma produced_not_yield d : Forall not_yield d -> produced d = 0.
Proof.
  induction 1 as [|e rest He _ IH]; [reflexivity|].
  destruct e as [| ? [?|] | | | | | |]; cbn [produced not_yield] in *; tauto.
Qed.

(** A loop body for a produced file adds exactly one to [count] when it
    runs to its end, at most one when it raises, and logs no yield. *)
Lemma loop_body_some_count o n s r s' :
  loop_body o (Some n) s = (r, s') ->
  calls_only not_yield s s' /\
  count (stats (self s)) <= count (stats (self s')) <= count (stats (self s)) + 1 /\
  (r = Ok tt -> count (stats (self s')) = count (stats (self s)) + 1).
Proof.
  intros E. split; [exact (@loop_body_calls C o (Some n) s r s' E)|].
  rewrite loop_body_unfold in E. apply bind_inv in E.
  destruct E as [(p & s1 & H1 & H2)|(e & H1 & ->)].
  - apply optimize_step_stats in H1. unfold stats_kept in H1.
    apply bind_inv in H2. destruct H2 as [(a & s2 & H2 & H3)|(e & H2 & _)];
      [|discriminate H2].
    apply modify_inv in H2. destruct H2 as [_ ->].
    apply account_count in H3. unfold count_kept in H3. simpl in H3.
    rewrite H3, H1. split; [lia|reflexivity].
  - apply optimize_step_stats in H1. unfold stats_kept in H1. rewrite H1.
    split; [lia|discriminate].
Qed.

Lemma for_loop_accounted step : forall s r s',
  for_loop step s = (r, s') ->
  exists d,
    calls s' = calls s ++ d /\
    count (stats (self s)) <= count (stats (self s'))
      <= count (stats (self s)) + produced d /\
    (produced d = 0 -> stats (self s') = stats (self s)) /\
    (r = Ok tt -> count (stats (self s')) = count (stats (self s)) + produced d).
Proof.
  induction step as [w|e w|o n w next IH]; intros s r s' E; simpl in E.
  - inversion E; subst. exists []. simpl. rewrite app_nil_r.
    repeat split; try lia; reflexivity.
  - inversion E; subst. exists []. simpl. rewrite app_nil_r.
    repeat split; try lia; reflexivity.
  - set (s0 := with_world w (logged (EvYield o n) s)) in E.
    destruct n as [n|].
    + destruct (loop_body o (Some n) s0) as [r1 s1] eqn:Eb.
      destruct (loop_body_some_count _ _ _ Eb) as ((db & Ec & Fb) & Hc & Hok).
      apply produced_not_yield in Fb. simpl in Ec, Hc, Hok.
      destruct r1 as [[]|e1].
      * destruct (IH _ _ _ _ E) as (d & Ed & Hd & Hz & Hk).
        exists ([EvYield o (Some n)] ++ db ++ d).
        rewrite !produced_app. cbn [produced]. rewrite Fb.
        pose proof (produced_nonneg d). specialize (Hok eq_refl).
        split; [rewrite Ed, Ec; now rewrite <- !app_assoc|].
        split; [lia|]. split; [lia|]. intros Hr. specialize (Hk Hr). lia.
      * inversion E; subst. exists ([EvYield o (Some n)] ++ db).
        rewrite produced_app. cbn [produced]. rewrite Fb.
        split; [rewrite Ec; now rewrite <- app_assoc|].
        split; [lia|]. split; [lia|discriminate].
    + simpl in E. destruct (IH _ _ _ _ E) as (d & Ed & Hd & Hz & Hk).
      exists ([EvYield o None] ++ d). simpl in Ed, Hd, Hz, Hk.
      rewrite produced_app. cbn [produced].
      split; [rewrite Ed; now rewrite <- app_assoc|]. auto.
Qed.

(** C2.  A pair without a new path leaves the loop body at once: the
    state, statistics included, is untouched, no error is raised and the
    loop goes on with the next pair.  Over a whole batch, [count] grows by
    the number of pairs that had a new path (by at most that number when
    the batch is cut short by an exception), and when no pair had one the
    three counters are exactly what they were. *)
Theorem skipped_files_add_nothing :
  (forall o s, loop_body o None s = (Ok tt, s)) /\
  (forall o w next s,
     for_loop (Yield o None w next) s =
     for_loop (next w) (with_world w (logged (EvYield o None) s))) /\
  (forall s r s',
     _process_all s = (r, s') ->
     exists d,
       calls s' = calls s ++ d /\
       count (stats (self s)) <= count (stats (self s'))
         <= count (stats (self s)) + produced d /\
       (produced d = 0 -> stats (self s') = stats (self s)) /\
       (r = Ok tt ->
        count (stats (self s')) = count (stats (self s)) + produced d)).
Proof.
  split; [reflexivity|]. split; [reflexivity|].
  intros s r s' E.
  destruct (paths_list (self s)) as [|it rest] eqn:Eq.
  - rewrite (process_all_empty s Eq) in E. inversion E; subst. exists [].
    rewrite app_nil_r. simpl. repeat split; lia.
  - rewrite process_all_nonempty in E by congruence.
    destruct (for_loop _ _) as [r1 s1] eqn:El.
    apply for_loop_accounted in El. destruct El as (d & Ed & Hd & Hz & Hk).
    simpl in Ed, Hd, Hz, Hk. rewrite <- app_assoc in Ed.
    match type of Ed with
    | _ = _ ++ ?l => exists l
    end.
    cbn [app produced].
    destruct r1 as [[]|e1].
    + pose proof (button_ok_state_stats E) as Hb.
      pose proof (button_ok_state_calls (fun _ => False) E) as (d' & Hc' & F).
      destruct d' as [|x d']; [|inversion F; contradiction].
      rewrite app_nil_r in Hc'. unfold stats_kept in Hb. simpl in Hb, Hc'.
      rewrite Hb, Hc'. specialize (Hk eq_refl). repeat split; auto; lia.
    + inversion E; subst. repeat split; auto; try lia; discriminate.
Qed.

(** ** The optimization step *)

(** The accounting of a loop body that runs to its end: two sizes are
    read, the original's and then the output's, and both are added. *)
Lemma account_ok o p s s' :
  account o p s = (Ok tt, s') ->
  exists a b w1 w2 d,
    st_size o (world s) = (Ok a, w1) /\
    st_size p w1 = (Ok b, w2) /\
    stats (self s') = add_size_after b (add_size_before a (stats (self s))) /\
    calls s' = calls s ++ [EvStat o; EvStat p] ++ d /\
    Forall not_unlink d.
Proof.
  unfold account. intros E.
  split_bind E a s1 H1. apply call_inv in H1. destruct H1 as (w1 & Ha & ->).
  split_bind E u1 s2 H2. apply modify_inv in H2. destruct H2 as [_ ->].
  split_bind E b s3 H3. apply call_inv in H3. destruct H3 as (w2 & Hb & ->).
  split_bind E u2 s4 H4. apply modify_inv in H4. destruct H4 as [_ ->].
  simpl in Hb.
  match type of E with
  | ?m _ = _ =>
      assert (Hs : respects stats_kept m);
      [|assert (Hc : respects (calls_only not_unlink) m)]
  end.
  { pose proof (status_msg_stats ""). frame; reflexivity. }
  { pose proof (status_msg_calls_in not_unlink "").
    frame; [apply H; now intros []|now apply calls_only_logged]. }
  apply Hs in E as E1. apply Hc in E as (d & Ed & Fd).
  unfold stats_kept in E1. simpl in E1, Ed.
  exists a, b, w1, w2, d. repeat split; try assumption.
  rewrite Ed, <- !app_assoc. reflexivity.
Qed.

(** C5.  Take a pair with a new path for which the gate reads true, and a
    loop body that runs to its end.  If [optimize] returns a replacement,
    the pre-optimization file is unlinked, the size added to [size_after]
    is the replacement's (read after the unlink), and nothing else is
    unlinked; if it returns [None], the size added is the unoptimized
    output's and no file is unlinked at all. *)
Theorem optimized_output_is_recorded o n s s1 s' r w2 :
  use_optimization s = (Ok true, s1) ->
  loop_body o (Some n) s = (Ok tt, s') ->
  optimize n (world s1) = (r, w2) ->
  match r with
  | Ok (Some p) =>
      exists w3 w4 w5 a b d,
        unlink n w2 = (Ok tt, w3) /\
        st_size o w3 = (Ok a, w4) /\
        st_size p w4 = (Ok b, w5) /\
        stats (self s') =
          mkStats (count (stats (self s)) + 1)
                  (size_before (stats (self s)) + Z.of_N a)
                  (size_after (stats (self s)) + Z.of_N b) /\
        calls s' =
          calls s1 ++ [EvOptimize n; EvUnlink n; EvStat o; EvStat p] ++ d /\
        Forall not_unlink d
  | Ok None =>
      exists w3 w4 a b,
        st_size o w2 = (Ok a, w3) /\
        st_size n w3 = (Ok b, w4) /\
        stats (self s') =
          mkStats (count (stats (self s)) + 1)
                  (size_before (stats (self s)) + Z.of_N a)
                  (size_after (stats (self s)) + Z.of_N b) /\
        calls_only not_unlink s s'
  | Raise _ => False
  end.
Proof.
  intros Hu E Ho.
  pose proof Hu as Hst. apply use_optimization_stats in Hst.
  unfold stats_kept in Hst.
  pose proof Hu as Hv. apply (use_optimization_calls_in not_unlink) in Hv;
    [|now intros []].
  rewrite loop_body_unfold in E. unfold optimize_step in E.
  split_bind E p s2 H1. erewrite bind_ok in H1 by exact Hu.
  split_bind H1 po s3 H2. apply call_inv in H2. destruct H2 as (w2' & Ho' & ->).
  rewrite Ho in Ho'. inversion Ho'; subst w2' r. clear Ho'.
  split_bind E u s4 H3. apply modify_inv in H3. destruct H3 as [_ ->].
  apply account_ok in E. destruct E as (a & b & w4 & w5 & d & Ha & Hb & Hs & Hc & Fd).
  destruct po as [p'|].
  - split_bind H1 u2 s5 H4. apply call_inv in H4. destruct H4 as (w3 & Hun & ->).
    inversion H1; subst p s2. simpl in *. destruct u2.
    exists w3, w4, w5, a, b, d. rewrite Hs, Hc, Hst, <- !app_assoc.
    repeat split; assumption.
  - inversion H1; subst p s2. simpl in *.
    exists w4, w5, a, b. rewrite Hs, Hst. repeat split; try assumption.
    destruct Hv as (dv & Ev & Fv).
    exists (dv ++ [EvOptimize n; EvStat o; EvStat n] ++ d).
    split; [rewrite Hc, Ev, <- !app_assoc; reflexivity|].
    apply Forall_app. split; [exact Fv|].
    repeat (constructor; [exact I|]). exact Fd.
Qed.

(** ** The optimization gate *)

Lemma differs_false_string (x : string) (y : option string) :
  differs String.eqb x y = false <-> y = Some x.
Proof.
  destruct y as [v|]; simpl; [|split; discriminate].
  rewrite negb_false_iff, String.eqb_eq. split; congruence.
Qed.

Lemma differs_false_bool (x : bool) (y : option bool) :
  differs Bool.eqb x y = false <-> y = Some x.
Proof.
  destruct y as [v|]; simpl; [|split; discriminate].
  rewrite negb_false_iff, Bool.eqb_true_iff. split; congruence.
Qed.

Lemma use_optimization_hit (s : State) :
  up_to_date s ->
  exists b, _use_optimization (self s) = Some b /\ use_optimization s = (Ok b, s).
Proof.
  intros (Hc & Hk & Hs). destruct (_use_optimization (self s)) as [b|] eqn:E;
    [|congruence].
  exists b. split; [reflexivity|].
  apply differs_false_string in Hk. apply differs_false_bool in Hs.
  unfold use_optimization, bind, get. rewrite E, Hk, Hs. reflexivity.
Qed.

Lemma use_optimization_miss (s : State) :
  ~ up_to_date s -> use_optimization s = refresh_gate s.
Proof.
  intros H. unfold use_optimization, bind, get.
  destruct (_use_optimization (self s)) as [b|] eqn:E; [|reflexivity].
  destruct (differs String.eqb _ _) eqn:Hk; [reflexivity|].
  destruct (differs Bool.eqb _ _) eqn:Hs; [reflexivity|].
  apply differs_false_string in Hk. apply differs_false_bool in Hs.
  exfalso. apply H. unfold up_to_date. rewrite E. repeat split; congruence.
Qed.

Lemma refresh_gate_off (s : State) :
  CONF.optimize (conf s) = false ->
  exists s',
    refresh_gate s = (Ok false, s') /\ up_to_date s' /\
    conf s' = conf s /\ world s' = world s /\ calls s' = calls s.
Proof.
  intros H. eexists. split.
  - unfold refresh_gate, evaluate_gate, bind, get, modify. rewrite H. reflexivity.
  - unfold up_to_date. simpl. rewrite H. repeat split; congruence.
Qed.

Lemma use_optimization_off (s : State) :
  CONF.optimize (conf s) = false ->
  exists b s',
    use_optimization s = (Ok b, s') /\
    conf s' = conf s /\ world s' = world s /\ calls s' = calls s.
Proof.
  intros H.
  destruct (_use_optimization (self s)) as [b|] eqn:E.
  - destruct (differs String.eqb (CONF.tinify_key (conf s)) (_old_key (self s))
              || differs Bool.eqb (CONF.optimize (conf s)) (_old_state (self s)))
      eqn:D.
    + destruct (refresh_gate_off s H) as (s' & Hr & _ & Hrest).
      exists false, s'. split; [|exact Hrest].
      unfold use_optimization, bind, get. now rewrite E, D.
    + exists b, s. split; [|auto].
      unfold use_optimization, bind, get. now rewrite E, D.
  - destruct (refresh_gate_off s H) as (s' & Hr & _ & Hrest).
    exists false, s'. split; [|exact Hrest].
    unfold use_optimization, bind, get. now rewrite E.
Qed.

Lemma refresh_gate_ok (s : State) (b : bool) (s' : State) :
  refresh_gate s = (Ok b, s') ->
  up_to_date s' /\ _use_optimization (self s') = Some b /\ conf s' = conf s /\
  if CONF.optimize (conf s)
  then validate_key (CONF.tinify_key (conf s)) (world s) = (Ok b, world s') /\
       calls s' = calls s ++ [EvValidateKey (CONF.tinify_key (conf s))]
  else b = false /\ world s' = world s /\ calls s' = calls s.
Proof.
  unfold refresh_gate, evaluate_gate, bind, get, modify, call, ret. simpl.
  destruct (CONF.optimize (conf s)) eqn:Ho.
  - simpl. destruct (validate_key _ _) as [[v|e] w] eqn:Ev; intros H;
      inversion H; subst; clear H.
    unfold up_to_date. simpl. rewrite Ho. repeat split; congruence.
  - intros H. inversion H; subst; clear H.
    unfold up_to_date. simpl. rewrite Ho. repeat split; congruence.
Qed.

(** C6.  The gate is a cache.  Once it has been evaluated for the current
    key and toggle, a read returns the cached value and changes nothing, so
    nothing is recomputed and [validate_key] is not called.  Otherwise (never
    evaluated, or key or toggle changed since) the read recomputes, and the
    value is the toggle and the answer of [validate_key]: with the toggle
    on, [validate_key] is called once and its answer is the value; with the
    toggle off the value is false and [validate_key] is not called.  While
    the toggle is off, any number of reads, whatever the key is set to
    between them, calls [validate_key] not once. *)
Theorem gate_recomputed_on_change :
  (forall s,
     up_to_date s ->
     exists b, _use_optimization (self s) = Some b /\
               use_optimization s = (Ok b, s)) /\
  (forall s b s',
     ~ up_to_date s ->
     use_optimization s = (Ok b, s') ->
     up_to_date s' /\ _use_optimization (self s') = Some b /\
     conf s' = conf s /\
     if CONF.optimize (conf s)
     then validate_key (CONF.tinify_key (conf s)) (world s) = (Ok b, world s') /\
          calls s' = calls s ++ [EvValidateKey (CONF.tinify_key (conf s))]
     else b = false /\ world s' = world s /\ calls s' = calls s) /\
  (forall keys s,
     CONF.optimize (conf s) = false ->
     exists s',
       gate_reads keys s = (Ok tt, s') /\
       calls s' = calls s /\ world s' = world s /\
       CONF.optimize (conf s') = false).
Proof.
  split; [exact use_optimization_hit|]. split.
  - intros s b s' Hn E. rewrite (use_optimization_miss Hn) in E.
    now apply refresh_gate_ok.
  - induction keys as [|key rest IH]; intros s H.
    + exists s. repeat split; assumption.
    + set (s0 := with_conf (CONF.set_tinify_key key) s).
      destruct (use_optimization_off s0 H) as (b & s1 & E & Hc & Hw & Hl).
      assert (H1 : CONF.optimize (conf s1) = false) by (rewrite Hc; exact H).
      destruct (IH s1 H1) as (s' & E' & Hl' & Hw' & Ho').
      exists s'. split.
      * simpl. unfold bind at 1. unfold modify at 1. fold s0.
        unfold bind at 1. rewrite E. exact E'.
      * rewrite Hl', Hw', Hl, Hw. repeat split; assumption.
Qed.

(** ** The order of the rows *)

Lemma sorted_insert_sorted (x : string) (items : list string) :
  (forall a b, item_lt a b = true -> item_lt b a = false) ->
  (forall a b c, item_lt b a = false -> item_lt c b = false ->
                 item_lt c a = false) ->
  rows_sorted items -> rows_sorted (sorted_insert x items).
Proof.
  intros Hasym Htrans. unfold rows_sorted.
  induction items as [|it rest IH]; simpl; intros Hs.
  - repeat constructor.
  - apply StronglySorted_inv in Hs. destruct Hs as [Hrest Hall].
    destruct (item_lt it x) eqn:E.
    + constructor; [now apply IH|].
      apply Forall_forall. intros y Hy. apply sorted_insert_In in Hy.
      destruct Hy as [->|Hy]; [now apply Hasym|].
      rewrite Forall_forall in Hall. now apply Hall.
    + constructor; [now constructor|].
      constructor; [exact E|].
      eapply Forall_impl; [|exact Hall]. intros y Hy. simpl in Hy.
      now apply Htrans with it.
Qed.

Lemma process_all_first_call (s : State) :
  paths_list (self s) <> [] ->
  exists rest,
    calls (snd (_process_all s)) =
    calls s ++
    EvApplyWatermarks (map mkPath (paths_list (self s)))
                      (text (self s)) (picture (self s)) :: rest.
Proof.
  intros H. rewrite process_all_nonempty by exact H.
  destruct (for_loop _ _) as [r1 s1] eqn:El.
  assert (Hl : calls_only (fun _ => True) (logged
            (EvApplyWatermarks (map mkPath (paths_list (self s)))
               (text (self s)) (picture (self s)))
            (with_conf (CONF.set_picture (picture (self s)))
               (with_conf (CONF.set_text (text (self s))) s))) s1).
  { revert El. apply for_loop_respects.
    - apply calls_only_refl.
    - apply calls_only_trans.
    - intros; now apply calls_only_same.
    - intros s2 o n. exists [EvYield o n]. split; [reflexivity|now constructor].
    - intros o n. eapply respects_weaken; [|apply loop_body_calls].
      intros s2 s3. apply calls_only_weaken. auto. }
  destruct Hl as (d & Ed & _). simpl in Ed. rewrite <- app_assoc in Ed.
  exists d. destruct r1 as [[]|e]; simpl; exact Ed.
Qed.

(** C7 (as amended).  The paths handed to [apply_watermarks] are the rows
    of the list widget from the first row to the last, in one call; the
    widget sorts its rows, so, the item order being a strict weak order,
    the rows are in ascending order after any sequence of events, not in
    the order of the drops.  The batch is the loop over the generator
    [apply_watermarks rows text picture]: the argument of the generator is
    the list of the rows, and the call is logged with the same list. *)
Theorem rows_handed_in_sorted_order (s : State) (evs : list UIEvent) :
  (forall a b, item_lt a b = true -> item_lt b a = false) ->
  (forall a b c, item_lt b a = false -> item_lt c b = false ->
                 item_lt c a = false) ->
  rows_sorted (paths_list (self s)) ->
  let s1 := snd (session evs s) in
  rows_sorted (paths_list (self s1)) /\
  (paths_list (self s1) <> [] ->
   let rows := map mkPath (paths_list (self s1)) in
   let txt := text (self s1) in
   let pic := picture (self s1) in
   _process_all s1 =
   match for_loop (apply_watermarks rows txt pic (world s1))
                  (logged (EvApplyWatermarks rows txt pic)
                     (with_conf (CONF.set_picture pic)
                        (with_conf (CONF.set_text txt) s1))) with
   | (Ok _, s2) => button_ok_state (with_self (set_paths_list []) s2)
   | (Raise e, s2) => (Raise e, s2)
   end) /\
  (paths_list (self s1) <> [] ->
   exists rest,
     calls (snd (_process_all s1)) =
     calls s1 ++
     EvApplyWatermarks (map mkPath (paths_list (self s1)))
                       (text (self s1)) (picture (self s1)) :: rest).
Proof.
  intros Hasym Htrans Hs s1.
  split; [|split; [apply process_all_nonempty|apply process_all_first_call]].
  subst s1. destruct (session evs s) as [r s'] eqn:E. simpl.
  assert (Hk : respects (queue_keeps rows_sorted) (session evs)).
  { apply session_respects;
      [apply queue_keeps_refl | apply queue_keeps_trans | intros e].
    apply handle_keeps; [constructor|].
    intros x items _. now apply sorted_insert_sorted. }
  exact (Hk _ _ _ E Hs).
Qed.

(** ** The update check at startup *)

Lemma statistics_msg_bar : respects bar_kept statistics_msg.
Proof.
  assert (Hr : forall st, bar_kept st st) by reflexivity.
  assert (Ht : forall s1 s2 s3, bar_kept s1 s2 -> bar_kept s2 s3 -> bar_kept s1 s3)
    by (unfold bar_kept; congruence).
  unfold statistics_msg, use_optimization, refresh_gate, evaluate_gate.
  frame; first [apply Hr | apply Ht | reflexivity].
Qed.

Lemma showMessage_without_bar (msg : string) (s : State) :
  status_bar (self s) = None ->
  showMessage msg s = (Raise (AttributeError "status_bar"), s).
Proof. intros H. unfold showMessage, bind, get, raise. now rewrite H. Qed.

(** Without a status bar, [_status_msg] raises and shows nothing. *)
Lemma status_msg_without_bar (msg : string) (s : State) :
  status_bar (self s) = None ->
  exists e s', _status_msg msg s = (Raise e, s') /\ status_bar (self s') = None.
Proof.
  intros H. unfold _status_msg. destruct (truthy msg).
  - exists (AttributeError "status_bar"), s. split; [|exact H].
    unfold bind, ret. now apply showMessage_without_bar.
  - unfold bind at 1. destruct (statistics_msg s) as [[m|e] s1] eqn:E;
      apply statistics_msg_bar in E; unfold bar_kept in E; rewrite H in E.
    + exists (AttributeError "status_bar"), s1. split; [|exact E].
      now apply showMessage_without_bar.
    + exists e, s1. split; [reflexivity|exact E].
Qed.

(** C9 (what the code does).  On the platform where the update check runs
    and with updates enabled, a failure of [Updater().check] is caught, but
    the handler calls [_status_msg] before [__init__] has created the status
    bar: the handler itself raises, the exception leaves [__init__], and no
    message is shown. *)
Theorem update_failure_leaves_init (c : CONF.t) (w w' : World) (e : exn) :
  WINDOWS = true ->
  CONF.update c = true ->
  updater_check __version__ w = (Raise e, w') ->
  exists e' s',
    __init__ (startup c w) = (Raise e', s') /\ status_bar (self s') = None.
Proof.
  intros Hw Hu Hc.
  set (s0 := with_world w' (logged (EvUpdaterCheck __version__)
    (with_self (set_old_state None) (with_self (set_old_key None)
      (with_self (set_use_optimization None)
        (with_self (set_stats (mkStats 0 0 0)) (startup c w))))))).
  destruct (status_msg_without_bar (TR_get "UPDATE_ERROR" []) s0 eq_refl)
    as (e' & s' & E & Hb).
  exists e', s'. split; [|exact Hb].
  unfold __init__, bind, modify, get. simpl. rewrite Hu.
  unfold _check_for_update. rewrite Hw. simpl.
  unfold try_except, call. simpl. rewrite Hc. fold s0. now rewrite E.
Qed.

End Claims.

(** * When a batch runs to its end *)

Section Completion.

Context {C : Collaborators}.

Lemma completes_ret {A} (a : A) : completes (ret a).
Proof. intros s H. now exists a, s. Qed.

Lemma completes_get : completes get.
Proof. intros s H. now exists s, s. Qed.

Lemma completes_modify (f : State -> State) :
  (forall s, has_bar s -> has_bar (f s)) -> completes (modify f).
Proof. intros Hf s H. exists tt, (f s). split; [reflexivity|now apply Hf]. Qed.

Lemma completes_call {A} (e : Event) (c : Call World A) :
  call_returns c -> completes (call e c).
Proof.
  intros Hc s H. destruct (Hc (world s)) as (a & w & E).
  exists a, (with_world w (logged e s)). unfold call. rewrite E. now split.
Qed.

Lemma completes_bind {A B} (m : M A) (k : A -> M B) :
  completes m -> (forall a, completes (k a)) -> completes (bind m k).
Proof.
  intros Hm Hk s H. destruct (Hm s H) as (a & s1 & E1 & H1).
  destruct (Hk a s1 H1) as (b & s2 & E2 & H2).
  exists b, s2. split; [|exact H2]. unfold bind. now rewrite E1.
Qed.

End Completion.

Ltac completes_step :=
  match goal with
  | H : completes ?m |- completes ?m => exact H
  | H : forall x, completes (?m x) |- completes (?m _) => apply H
  | |- completes (bind _ _) => apply completes_bind; [|intros]
  | |- completes (ret _) => apply completes_ret
  | |- completes get => apply completes_get
  | |- completes (modify _) => apply completes_modify; intros ? ?; assumption
  | |- completes (call _ _) => apply completes_call; auto
  | |- completes (let _ := _ in _) => cbv zeta
  | |- completes (if ?b then _ else _) => destruct b
  | |- completes (match ?x with _ => _ end) => destruct x
  end.

Section Batch.

Context {C : Collaborators}.

Hypothesis validate_key_returns : forall key, call_returns (validate_key key).
Hypothesis optimize_returns : forall p, call_returns (optimize p).
Hypothesis unlink_returns : forall p, call_returns (unlink p).
Hypothesis st_size_returns : forall p, call_returns (st_size p).
Hypothesis processEvents_returns : call_returns processEvents.
Hypothesis apply_watermarks_returns :
  forall paths txt pic w, gen_returns (apply_watermarks paths txt pic w).

Lemma use_optimization_completes : completes use_optimization.
Proof.
  unfold use_optimization, refresh_gate, evaluate_gate. repeat completes_step.
Qed.

Lemma showMessage_completes msg : completes (showMessage msg).
Proof.
  intros s H. unfold showMessage, bind, get.
  destruct (status_bar (self s)) eqn:E; [|now elim H].
  eexists tt, _. split; [reflexivity|]. unfold has_bar. simpl. discriminate.
Qed.

Lemma status_msg_completes msg : completes (_status_msg msg).
Proof.
  pose proof use_optimization_completes. pose proof showMessage_completes.
  unfold _status_msg, statistics_msg. repeat completes_step.
Qed.

Lemma loop_body_completes o n : completes (loop_body o n).
Proof.
  pose proof use_optimization_completes. pose proof status_msg_completes.
  unfold loop_body, optimize_step, update_stats. repeat completes_step.
Qed.

Lemma for_loop_completes step :
  gen_returns step ->
  forall s, has_bar s -> exists s', for_loop step s = (Ok tt, s') /\ has_bar s'.
Proof.
  induction 1 as [w|o n w next _ IH]; intros s Hb; simpl.
  - now exists (with_world w s).
  - destruct (loop_body_completes o n
                (s:=with_world w (logged (EvYield o n) s)) Hb)
      as ([] & s1 & E & H1).
    rewrite E. now apply IH.
Qed.

(** With collaborators that return, a batch started on a constructed window
    runs to its end. *)
Lemma process_all_completes (s : State) :
  has_bar s -> exists s', _process_all s = (Ok tt, s').
Proof.
  intros Hb. destruct (paths_list (self s)) as [|it rest] eqn:Eq.
  - eexists. now apply process_all_empty.
  - rewrite process_all_nonempty by congruence. cbv zeta.
    match goal with
    | |- context [for_loop (apply_watermarks ?ps ?txt ?pic ?w) ?s0] =>
        destruct (@for_loop_completes _
                    (apply_watermarks_returns ps txt pic w) s0 Hb)
          as (s1 & E & _)
    end.
    rewrite E. eexists. unfold button_ok_state, bind, get, modify. reflexivity.
Qed.

End Batch.

(** * Further properties *)

(** ** Relations that are told whether the computation returned *)

Section Observing.

Context {C : Collaborators}.

Variable R : State -> bool -> State -> Prop.
Hypothesis R_here : forall s b, R s b s.
Hypothesis R_then : forall s1 s2 s3 b, R s1 true s2 -> R s2 b s3 -> R s1 b s3.

Lemma observes_ret {A} (a : A) : observes R (ret a).
Proof. intros s r s' H. inversion H. apply R_here. Qed.

Lemma observes_raise {A} (e : exn) : observes R (@raise _ A e).
Proof. intros s r s' H. inversion H. apply R_here. Qed.

Lemma observes_get : observes R get.
Proof. intros s r s' H. inversion H. apply R_here. Qed.

Lemma observes_modify (f : State -> State) :
  (forall s, R s true (f s)) -> observes R (modify f).
Proof. intros Hf s r s' H. inversion H. apply Hf. Qed.

Lemma observes_call {A} (e : Event) (c : Call World A) :
  (forall s w b, R s b (with_world w (logged e s))) -> observes R (call e c).
Proof.
  intros Hc s r s'. unfold call. destruct (c (world s)) as [r0 w].
  intros H. inversion H. apply Hc.
Qed.

Lemma observes_bind {A B} (m : M A) (k : A -> M B) :
  observes R m -> (forall a, observes R (k a)) -> observes R (bind m k).
Proof.
  intros Hm Hk s r s' H.
  destruct (bind_inv _ _ _ H) as [(a & s1 & H1 & H2)|(e & H1 & ->)].
  - eapply R_then; [exact (Hm _ _ _ H1)|exact (Hk _ _ _ _ H2)].
  - exact (Hm _ _ _ H1).
Qed.

Lemma observes_for_loop :
  (forall s w b, R s b (with_world w s)) ->
  (forall s o n, R s true (logged (EvYield o n) s)) ->
  (forall o n, observes R (loop_body o n)) ->
  forall step, observes R (for_loop step).
Proof.
  intros Hw Hy Hb.
  induction step as [w|e w|o n w next IH]; intros s r s'; simpl.
  - intros H. inversion H. apply Hw.
  - intros H. inversion H. apply Hw.
  - destruct (loop_body o n _) as [[[]|e] s1] eqn:E; intros H.
    + apply IH in H. apply Hb in E. simpl in E.
      eapply R_then; [|exact H]. eapply R_then; [|exact E].
      eapply R_then; [apply Hy|apply Hw].
    + inversion H; subst. apply Hb in E. simpl in *.
      eapply R_then; [|exact E]. eapply R_then; [apply Hy|apply Hw].
Qed.

End Observing.

Ltac observe_step :=
  match goal with
  | H : observes ?R ?m |- observes ?R ?m => exact H
  | H : forall x, observes ?R (?m x) |- observes ?R (?m _) => apply H
  | H : forall x y, observes ?R (?m x y) |- observes ?R (?m _ _) => apply H
  | H : forall x y z, observes ?R (?m x y z) |- observes ?R (?m _ _ _) => apply H
  | |- observes _ (bind _ _) => apply observes_bind; [assumption | | intros]
  | |- observes _ (ret _) => apply observes_ret; assumption
  | |- observes _ (raise _) => apply observes_raise; assumption
  | |- observes _ get => apply observes_get; assumption
  | |- observes _ (modify _) => apply observes_modify; intros
  | |- observes _ (call _ _) => apply observes_call; intros
  | |- observes _ (let _ := _ in _) => cbv zeta
  | |- observes _ (if ?b then _ else _) => destruct b
  | |- observes _ (match ?x with _ => _ end) => destruct x
  end.

(** Frame steps for a relation whose reflexivity and transitivity are among
    the hypotheses. *)
Ltac frame_with Hrefl Htrans :=
  repeat match goal with
  | H : respects ?R ?m |- respects ?R ?m => exact H
  | H : forall x, respects ?R (?m x) |- respects ?R (?m _) => apply H
  | H : forall x y, respects ?R (?m x y) |- respects ?R (?m _ _) => apply H
  | H : forall x y z, respects ?R (?m x y z) |- respects ?R (?m _ _ _) => apply H
  | |- respects _ (bind _ _) => apply respects_bind; [exact Htrans | | intros]
  | |- respects _ (ret _) => apply respects_ret; exact Hrefl
  | |- respects _ (raise _) => apply respects_raise; exact Hrefl
  | |- respects _ get => apply respects_get; exact Hrefl
  | |- respects _ (try_except _ _) =>
      apply respects_try; [exact Htrans | | intros]
  | |- respects _ (modify _) => apply respects_modify; intros
  | |- respects _ (call _ _) => apply respects_call; intros
  | |- respects _ (let _ := _ in _) => cbv zeta
  | |- respects _ (if ?b then _ else _) => destruct b
  | |- respects _ (match ?x with _ => _ end) => destruct x
  end.

(** ** The gate never reports true for a toggle that is off *)

Section GateSoundness.

Context {C : Collaborators}.

Lemma state_keeps_refl (I : State -> Prop) s : state_keeps I s s.
Proof. now intros H. Qed.

Lemma state_keeps_trans (I : State -> Prop) s1 s2 s3 :
  state_keeps I s1 s2 -> state_keeps I s2 s3 -> state_keeps I s1 s3.
Proof. unfold state_keeps. auto. Qed.

Lemma refresh_gate_sound (s : State) r s' :
  refresh_gate s = (r, s') -> gate_sound s'.
Proof.
  unfold refresh_gate, evaluate_gate, bind, get, modify, call, ret. simpl.
  destruct (CONF.optimize (conf s)) eqn:Ho; simpl.
  - destruct (validate_key _ _) as [[v|e] w]; intros H; inversion H; subst;
      unfold gate_sound; simpl; intros _; reflexivity.
  - intros H; inversion H; subst. unfold gate_sound; simpl. discriminate.
Qed.

Lemma use_optimization_sound : respects (state_keeps gate_sound) use_optimization.
Proof.
  intros s r s' E Hs. unfold use_optimization, bind, get in E.
  destruct (_use_optimization (self s)) as [b|].
  - destruct (_ || _).
    + eapply refresh_gate_sound, E.
    + inversion E; subst. exact Hs.
  - eapply refresh_gate_sound, E.
Qed.

(** A sound gate that reads true was evaluated with the toggle on, and the
    toggle is still on. *)
Lemma gate_sound_read (s s' : State) :
  gate_sound s -> use_optimization s = (Ok true, s') ->
  CONF.optimize (conf s) = true.
Proof.
  intros Hs E. unfold use_optimization, bind, get in E.
  assert (Hr : refresh_gate s = (Ok true, s') -> CONF.optimize (conf s) = true).
  { intros Er. apply refresh_gate_ok in Er. destruct Er as (_ & _ & _ & Hif).
    destruct (CONF.optimize (conf s)); [reflexivity|].
    destruct Hif as [Hf _]. discriminate Hf. }
  destruct (_use_optimization (self s)) as [b|] eqn:Ec; [|now apply Hr].
  destruct (differs String.eqb _ _); [now apply Hr|].
  destruct (differs Bool.eqb _ _) eqn:Hd; [now apply Hr|].
  simpl in E. inversion E; subst b s'.
  apply differs_false_bool in Hd. specialize (Hs Ec). congruence.
Qed.

Lemma status_msg_sound msg : respects (state_keeps gate_sound) (_status_msg msg).
Proof.
  pose proof use_optimization_sound.
  pose proof (state_keeps_refl gate_sound) as Hr.
  pose proof (state_keeps_trans (I:=gate_sound)) as Ht.
  unfold _status_msg, statistics_msg, showMessage.
  frame_with Hr Ht; intros Hs; exact Hs.
Qed.

Lemma loop_body_sound o n : respects (state_keeps gate_sound) (loop_body o n).
Proof.
  pose proof use_optimization_sound. pose proof status_msg_sound.
  pose proof (state_keeps_refl gate_sound) as Hr.
  pose proof (state_keeps_trans (I:=gate_sound)) as Ht.
  unfold loop_body, optimize_step, update_stats.
  frame_with Hr Ht; intros Hs; exact Hs.
Qed.

Lemma process_all_sound : respects (state_keeps gate_sound) _process_all.
Proof.
  pose proof (state_keeps_refl gate_sound) as Hr.
  pose proof (state_keeps_trans (I:=gate_sound)) as Ht.
  assert (forall paths txt pic,
             respects (state_keeps gate_sound) (for_each_watermarked paths txt pic)).
  { intros. apply for_each_respects. intros step.
    apply for_loop_respects; try assumption; try (intros; intros Hs; exact Hs).
    apply loop_body_sound. }
  unfold _process_all, button_ok_state.
  frame_with Hr Ht; intros Hs; exact Hs.
Qed.

Lemma handle_sound e : respects (state_keeps gate_sound) (handle e).
Proof.
  pose proof process_all_sound.
  pose proof (state_keeps_refl gate_sound) as Hr.
  pose proof (state_keeps_trans (I:=gate_sound)) as Ht.
  destruct e as [urls| |v|v|path|c|]; simpl;
    unfold dropEvent, button_ok_state, _select_one_file;
    frame_with Hr Ht; intros Hs; exact Hs.
Qed.

Lemma init_sound (s : State) : gate_sound (snd (__init__ s)).
Proof.
  destruct (__init__ s) as [r s'] eqn:E. simpl. unfold __init__ in E.
  do 4 (apply bind_inv in E;
        destruct E as [(? & ? & H1 & E)|(? & H1 & _)]; [|discriminate H1];
        apply modify_inv in H1; destruct H1 as [_ ->]).
  match type of E with
  | ?m _ = _ => assert (Hk : respects (state_keeps gate_sound) m)
  end.
  { pose proof status_msg_sound.
    pose proof (state_keeps_refl gate_sound) as Hr.
    pose proof (state_keeps_trans (I:=gate_sound)) as Ht.
    unfold _check_for_update, _status_bar, _window, button_ok_state.
    frame_with Hr Ht; intros Hs; exact Hs. }
  apply (Hk _ _ _ E). unfold gate_sound. simpl. discriminate.
Qed.

(** The gate is sound in every state of a session. *)
Lemma lifetime_sound (c : CONF.t) (w : World) (evs : list UIEvent) :
  gate_sound (snd ((__init__;; session evs)%monad (startup c w))).
Proof.
  unfold bind. pose proof (init_sound (startup c w)) as Hi.
  destruct (__init__ (startup c w)) as [[[]|e] s0]; simpl in *; [|exact Hi].
  destruct (session evs s0) as [r s] eqn:E. simpl.
  assert (Hk : respects (state_keeps gate_sound) (session evs))
    by (apply session_respects;
        [apply state_keeps_refl|apply state_keeps_trans|apply handle_sound]).
  exact (Hk _ _ _ E Hi).
Qed.

End GateSoundness.

(** ** With the toggle off nothing is optimized *)

Section ToggleOff.

Context {C : Collaborators}.

Lemma quiet_refl s : quiet_while_off s s.
Proof. intros [Ho Hs]. repeat split; try assumption. apply calls_only_refl. Qed.

Lemma quiet_trans s1 s2 s3 :
  quiet_while_off s1 s2 -> quiet_while_off s2 s3 -> quiet_while_off s1 s3.
Proof.
  intros H12 H23 H1. destruct (H12 H1) as (Ho & Hs & Hc).
  destruct (H23 (conj Ho Hs)) as (Ho' & Hs' & Hc').
  repeat split; try assumption. eapply calls_only_trans; eassumption.
Qed.

(** Side conditions of the frame steps: the update leaves the settings, the
    gate and the log alone, or logs one plain call. *)
Ltac quiet_side :=
  let Ho := fresh "Ho" in
  let Hs := fresh "Hs" in
  intros [Ho Hs]; split; [exact Ho|split; [exact Hs|]];
  first [apply calls_only_same; reflexivity | apply calls_only_logged; exact I].

Lemma use_optimization_quiet : respects quiet_while_off use_optimization.
Proof.
  intros s r s' E [Ho Hs].
  destruct (use_optimization_off s Ho) as (b & s1 & E1 & Hc & _ & Hl).
  rewrite E1 in E. inversion E; subst r s1. split; [now rewrite Hc|].
  split; [exact (use_optimization_sound E1 Hs)|now apply calls_only_same].
Qed.

Lemma optimize_step_quiet p : respects quiet_while_off (optimize_step p).
Proof.
  intros s r s' E H. pose proof H as [Ho Hs]. unfold optimize_step in E.
  apply bind_inv in E. destruct E as [(b & s1 & E1 & E2)|(e & E1 & _)].
  - destruct b.
    + apply (gate_sound_read Hs) in E1. congruence.
    + inversion E2; subst. exact (use_optimization_quiet E1 H).
  - exact (use_optimization_quiet E1 H).
Qed.

Lemma status_msg_quiet msg : respects quiet_while_off (_status_msg msg).
Proof.
  pose proof use_optimization_quiet.
  pose proof quiet_refl as Hr. pose proof quiet_trans as Ht.
  unfold _status_msg, statistics_msg, showMessage.
  frame_with Hr Ht; quiet_side.
Qed.

Lemma before_pump_quiet o n : respects quiet_while_off (before_pump o n).
Proof.
  pose proof optimize_step_quiet. pose proof status_msg_quiet.
  pose proof quiet_refl as Hr. pose proof quiet_trans as Ht.
  unfold before_pump, update_stats.
  frame_with Hr Ht; quiet_side.
Qed.

(** The loop body is [before_pump] followed by the event pump. *)
Lemma loop_body_pump o n s :
  loop_body o (Some n) s =
  (before_pump o n;; call EvProcessEvents processEvents)%monad s.
Proof.
  unfold loop_body, before_pump, bind.
  repeat match goal with
         | |- context [match ?m ?x with _ => _ end] =>
             destruct (m x) as [[?|?] ?]
         end; reflexivity.
Qed.

(** X1.  In every state of a session that started with the construction
    of the window, a gate that reads true means the optimize toggle is on:
    the cache never serves a true that was computed before the toggle was
    turned off. *)
Theorem gate_true_only_with_toggle_on
    (c : CONF.t) (w : World) (evs : list UIEvent) (s' : State) :
  let s := snd ((__init__;; session evs)%monad (startup c w)) in
  use_optimization s = (Ok true, s') ->
  CONF.optimize (conf s) = true.
Proof.
  intros s E. eapply gate_sound_read; [|exact E]. apply lifetime_sound.
Qed.

(** X2.  For a file with a new path, reached with the optimize toggle off
    and a gate that holds no stale true, the loop body up to the event pump
    (lines 250-265) calls neither [optimize], nor [unlink], nor
    [validate_key], however it ends. *)
Theorem file_with_toggle_off_is_plain
    (o n : Path) (s : State) (r : result unit) (s' : State) :
  gate_sound s ->
  CONF.optimize (conf s) = false ->
  before_pump o n s = (r, s') ->
  calls_only is_plain s s'.
Proof.
  intros Hs Ho E. apply before_pump_quiet in E.
  apply E. split; [exact Ho|exact Hs].
Qed.

End ToggleOff.

(** ** Validating the key *)

Section Validation.

Context {C : Collaborators}.

(** X3.  When the key or the toggle has changed since the gate was last
    evaluated and [validate_key] raises, the exception leaves the read, but
    the new key and toggle have been remembered already (lines 107-108)
    while the value has not been replaced (line 109): the next read is
    served from the cache, returns the value computed for the old key and
    does not call [validate_key] again. *)
Theorem failed_validation_leaves_old_value
    (s : State) (b : bool) (e : exn) (w' : World) :
  _use_optimization (self s) = Some b ->
  CONF.optimize (conf s) = true ->
  ~ up_to_date s ->
  validate_key (CONF.tinify_key (conf s)) (world s) = (Raise e, w') ->
  exists s1,
    use_optimization s = (Raise e, s1) /\
    calls s1 = calls s ++ [EvValidateKey (CONF.tinify_key (conf s))] /\
    _old_key (self s1) = Some (CONF.tinify_key (conf s)) /\
    use_optimization s1 = (Ok b, s1).
Proof.
  intros Hc Ho Hn Hv. rewrite (use_optimization_miss Hn).
  eexists. split.
  - unfold refresh_gate, evaluate_gate, bind, get, modify, call. simpl.
    rewrite Ho. simpl. rewrite Hv. reflexivity.
  - split; [reflexivity|]. split; [reflexivity|].
    match goal with
    | |- use_optimization ?s1 = _ =>
        destruct (@use_optimization_hit _ s1) as (b' & Hb & E)
    end.
    + unfold up_to_date. simpl. rewrite Hc, Ho. repeat split; congruence.
    + simpl in Hb. rewrite Hc in Hb. inversion Hb; subst b'. exact E.
Qed.

Lemma validations_app d1 d2 :
  validations (d1 ++ d2) = (validations d1 + validations d2)%nat.
Proof.
  induction d1 as [|ev rest IH]; [reflexivity|].
  destruct ev; simpl; now rewrite ?IH.
Qed.

(** A step that validates nothing and leaves the key, the toggle and the
    gate alone. *)
Lemma once_plain (s : State) (b : bool) (s' : State) (d : list Event) :
  calls s' = calls s ++ d ->
  validations d = 0%nat ->
  CONF.tinify_key (conf s') = CONF.tinify_key (conf s) ->
  CONF.optimize (conf s') = CONF.optimize (conf s) ->
  gate_kept s s' ->
  validates_once s b s'.
Proof.
  intros Ed Hv Hk Ho (G1 & G2 & G3). exists d.
  assert (Hu : up_to_date s -> up_to_date s')
    by (unfold up_to_date; rewrite G1, G2, G3, Hk, Ho; auto).
  split; [exact Ed|]. split; [exact Hk|]. split; [exact Ho|].
  split; [auto|]. split; [lia|]. intros _ H1. lia.
Qed.

Lemma once_here s b : validates_once s b s.
Proof.
  apply once_plain with (d := []); try reflexivity.
  - now rewrite app_nil_r.
  - repeat split.
Qed.

Lemma once_then s1 s2 s3 b :
  validates_once s1 true s2 -> validates_once s2 b s3 -> validates_once s1 b s3.
Proof.
  intros (d1 & E1 & K1 & O1 & U1 & L1 & F1) (d2 & E2 & K2 & O2 & U2 & L2 & F2).
  exists (d1 ++ d2). rewrite validations_app.
  split; [rewrite E2, E1; now rewrite app_assoc|].
  split; [congruence|]. split; [congruence|]. split; [|split].
  - intros H. destruct (U1 H) as [Z1 H2]. destruct (U2 H2) as [Z2 H3].
    split; [lia|exact H3].
  - destruct (validations d1) as [|[|n]] eqn:V1; [lia| |lia].
    destruct (U2 (F1 eq_refl eq_refl)) as [Z2 _]. lia.
  - intros Hb Hv. destruct (validations d1) as [|[|n]] eqn:V1; [| |lia].
    + apply F2; [exact Hb|lia].
    + destruct (U2 (F1 eq_refl eq_refl)) as [_ H3]. exact H3.
Qed.

(** Side conditions: an update that leaves the settings and the gate alone
    and logs nothing, or one call that is not a validation. *)
Ltac once_side :=
  first
    [ apply once_plain with (d := @nil Event);
      [simpl; now rewrite app_nil_r|reflexivity|reflexivity|reflexivity
      |repeat split]
    | eapply once_plain with (d := cons _ nil);
      [reflexivity|reflexivity|reflexivity|reflexivity|repeat split] ].

Lemma refresh_gate_once (s : State) r s' :
  ~ up_to_date s -> refresh_gate s = (r, s') -> validates_once s (returned r) s'.
Proof.
  intros Hn.
  unfold refresh_gate, evaluate_gate, bind, get, modify, call, ret. simpl.
  destruct (CONF.optimize (conf s)) eqn:Ho; simpl.
  - destruct (validate_key _ _) as [[v|e] w]; intros H; inversion H; subst;
      exists [EvValidateKey (CONF.tinify_key (conf s))]; simpl;
      (split; [reflexivity|]); (split; [reflexivity|]);
      (split; [reflexivity|]); (split; [intros Hu; contradiction|]);
      (split; [lia|]); intros Hr _; try discriminate Hr;
      unfold up_to_date; simpl; rewrite Ho; repeat split; congruence.
  - intros H; inversion H; subst. exists []. rewrite app_nil_r. simpl.
    (split; [reflexivity|]); (split; [reflexivity|]);
      (split; [reflexivity|]); (split; [intros Hu; contradiction|]);
      (split; [lia|]); intros _ Hv; discriminate Hv.
Qed.

Lemma use_optimization_once : observes validates_once use_optimization.
Proof.
  intros s r s' E. unfold use_optimization, bind, get in E.
  destruct (_use_optimization (self s)) as [b|] eqn:Ec.
  - destruct (differs String.eqb _ _) eqn:Hk.
    + apply refresh_gate_once; [|exact E]. intros (_ & Hkey & _).
      apply differs_false_string in Hkey. congruence.
    + destruct (differs Bool.eqb _ _) eqn:Hs.
      * apply refresh_gate_once; [|exact E]. intros (_ & _ & Hst).
        apply differs_false_bool in Hst. congruence.
      * inversion E; subst. apply once_here.
  - apply refresh_gate_once; [|exact E]. intros (Hc & _). congruence.
Qed.

Lemma status_msg_once msg : observes validates_once (_status_msg msg).
Proof.
  pose proof use_optimization_once.
  pose proof once_here. pose proof once_then.
  unfold _status_msg, statistics_msg, showMessage.
  repeat observe_step; once_side.
Qed.

Lemma before_pump_once o n : observes validates_once (before_pump o n).
Proof.
  pose proof use_optimization_once. pose proof status_msg_once.
  pose proof once_here. pose proof once_then.
  unfold before_pump, optimize_step, update_stats.
  repeat observe_step; once_side.
Qed.

(** X4.  For a file with a new path the gate is read twice before the
    event pump (line 251 and, through [_status_msg], line 155), but in
    these lines (250-265) [validate_key] is called at most once, however
    they end, and not at all when the gate was up to date on entry. *)
Theorem file_validates_key_at_most_once (o n : Path) (s : State) :
  exists d,
    calls (snd (before_pump o n s)) = calls s ++ d /\
    (validations d <= 1)%nat /\
    (up_to_date s -> validations d = 0%nat).
Proof.
  destruct (before_pump o n s) as [r s'] eqn:E. simpl.
  apply before_pump_once in E. destruct E as (d & Ed & _ & _ & Hu & Hl & _).
  exists d. split; [exact Ed|]. split; [exact Hl|]. intros H. now apply Hu.
Qed.

End Validation.

(** ** What a batch leaves of the widgets *)

Section Widgets.

Context {C : Collaborators}.

Lemma widgets_kept_refl s : widgets_kept s s.
Proof. repeat split. Qed.

Lemma widgets_kept_trans s1 s2 s3 :
  widgets_kept s1 s2 -> widgets_kept s2 s3 -> widgets_kept s1 s3.
Proof.
  intros (A1 & B1 & C1 & D1) (A2 & B2 & C2 & D2). repeat split; congruence.
Qed.

Lemma use_optimization_widgets : respects widgets_kept use_optimization.
Proof.
  pose proof widgets_kept_refl as Hr. pose proof widgets_kept_trans as Ht.
  unfold use_optimization, refresh_gate, evaluate_gate.
  frame_with Hr Ht; repeat split.
Qed.

Lemma status_msg_widgets msg : respects widgets_kept (_status_msg msg).
Proof.
  pose proof use_optimization_widgets.
  pose proof widgets_kept_refl as Hr. pose proof widgets_kept_trans as Ht.
  unfold _status_msg, statistics_msg, showMessage.
  frame_with Hr Ht; repeat split.
Qed.

Lemma loop_body_widgets o n : respects widgets_kept (loop_body o n).
Proof.
  pose proof use_optimization_widgets. pose proof status_msg_widgets.
  pose proof widgets_kept_refl as Hr. pose proof widgets_kept_trans as Ht.
  unfold loop_body, optimize_step, update_stats.
  frame_with Hr Ht; repeat split.
Qed.

Lemma for_loop_widgets step : respects widgets_kept (for_loop step).
Proof.
  apply for_loop_respects;
    first [apply widgets_kept_refl | apply widgets_kept_trans
          | apply loop_body_widgets | intros; repeat split].
Qed.

(** How a batch ends: on an empty list nothing happens to the widgets; on
    rows, either it returns with the list cleared and the button disabled,
    or it raises and the widgets are as they were. *)
Lemma process_all_outcome (s : State) r s' :
  _process_all s = (r, s') ->
  (paths_list (self s) = [] /\ r = Ok tt /\ widgets_kept s s') \/
  (paths_list (self s) <> [] /\ r = Ok tt /\
   paths_list (self s') = [] /\ buttons (self s') = false /\
   text (self s') = text (self s) /\ picture (self s') = picture (self s)) \/
  (paths_list (self s) <> [] /\ (exists e, r = Raise e) /\ widgets_kept s s').
Proof.
  intros E. destruct (paths_list (self s)) as [|it rest] eqn:Eq.
  - left. rewrite (process_all_empty s Eq) in E. inversion E; subst.
    repeat split.
  - right. rewrite process_all_nonempty in E by congruence.
    destruct (for_loop _ _) as [[[]|e] s1] eqn:El;
      apply for_loop_widgets in El; destruct El as (A & B & T & P);
      simpl in A, B, T, P.
    + left. inversion E; subst; simpl. rewrite andb_false_r, T, P.
      repeat split; congruence.
    + right. inversion E; subst. split; [congruence|]. split; [eauto|].
      repeat split; simpl; congruence.
Qed.

End Widgets.

(** ** The constructed window *)

Section Construction.

Context {C : Collaborators}.

Lemma append_empty_r (m : string) : String.append m "" = m.
Proof. induction m as [|a m IH]; simpl; now rewrite ?IH. Qed.

(** A read of the gate that returns leaves the gate up to date. *)
Lemma use_optimization_fresh (s : State) (b : bool) (s' : State) :
  use_optimization s = (Ok b, s') ->
  up_to_date s' /\ _use_optimization (self s') = Some b.
Proof.
  intros E. unfold use_optimization, bind, get in E.
  assert (Hr : refresh_gate s = (Ok b, s') ->
               up_to_date s' /\ _use_optimization (self s') = Some b).
  { intros Er. apply refresh_gate_ok in Er. tauto. }
  destruct (_use_optimization (self s)) as [c|] eqn:Ec; [|now apply Hr].
  destruct (differs String.eqb _ _) eqn:Hk; [now apply Hr|].
  destruct (differs Bool.eqb _ _) eqn:Hs; [now apply Hr|].
  simpl in E. inversion E; subst c s'.
  apply differs_false_string in Hk. apply differs_false_bool in Hs.
  split; [|exact Ec]. unfold up_to_date. rewrite Ec. repeat split; congruence.
Qed.

Lemma showMessage_ok (msg : string) (s s' : State) :
  showMessage msg s = (Ok tt, s') ->
  s' = with_self (set_status_bar (Some msg)) s.
Proof.
  unfold showMessage, bind, get, raise, modify.
  destruct (status_bar (self s)); intros E; now inversion E.
Qed.

(** [_status_msg()] that returns: the bar shows the statistics as they
    are, and the gate has been read. *)
Lemma status_msg_empty_ok (s s' : State) :
  _status_msg "" s = (Ok tt, s') ->
  shows_stats s' /\ up_to_date s' /\
  stats (self s') = stats (self s) /\ conf s' = conf s.
Proof.
  intros E. pose proof E as Hst. apply status_msg_stats in Hst.
  pose proof E as Hcf. apply status_msg_conf in Hcf.
  unfold stats_kept in Hst. unfold conf_kept in Hcf.
  split; [|split; [|split; assumption]].
  - unfold _status_msg in E. simpl in E. split_bind E m s1 H1.
    apply showMessage_ok in E. subst s'. simpl in Hst.
    unfold statistics_msg in H1. split_bind H1 s0 s0' H0.
    inversion H0; subst s0 s0'. split_bind H1 b s2 H2.
    fold (stats_text (stats (self s))) in H1.
    unfold shows_stats. simpl. rewrite Hst.
    destruct b.
    + unfold bind, get, ret in H1. inversion H1; subst. eauto.
    + inversion H1; subst. exists "". now rewrite append_empty_r.
  - unfold _status_msg in E. simpl in E. split_bind E m s1 H1.
    apply showMessage_ok in E. subst s'.
    unfold statistics_msg in H1. split_bind H1 s0 s0' H0.
    inversion H0; subst s0 s0'. split_bind H1 b s2 H2.
    apply use_optimization_fresh in H2. destruct H2 as [Hu _].
    assert (s1 = s2) by (destruct b; unfold bind, get, ret in H1; now inversion H1).
    subst s2. exact Hu.
Qed.

Lemma check_for_update_conf : respects conf_kept _check_for_update.
Proof.
  pose proof status_msg_conf.
  unfold _check_for_update. frame; reflexivity.
Qed.

(** The window a construction that returns leaves behind. *)
Lemma init_ok (c : CONF.t) (w : World) (s : State) :
  __init__ (startup c w) = (Ok tt, s) ->
  text (self s) = CONF.text c /\ picture (self s) = CONF.picture c /\
  paths_list (self s) = [] /\ buttons (self s) = false /\
  stats (self s) = mkStats 0 0 0 /\ conf s = c /\
  shows_stats s /\ up_to_date s.
Proof.
  intros E. unfold __init__ in E.
  do 4 (apply bind_inv in E;
        destruct E as [(? & ? & H1 & E)|(? & H1 & _)]; [|discriminate H1];
        apply modify_inv in H1; destruct H1 as [_ ->]).
  split_bind E s4 s4' H4. inversion H4; subst s4 s4'. clear H4.
  split_bind E u5 s5 H5.
  assert (Hc5 : conf s5 = c /\ stats (self s5) = mkStats 0 0 0).
  { destruct (CONF.update _).
    - pose proof H5 as H5'. apply check_for_update_conf in H5.
      apply check_for_update_stats in H5'. split; [exact H5|exact H5'].
    - inversion H5; subst. split; reflexivity. }
  destruct Hc5 as [Hc5 Hs5].
  split_bind E u6 s6 H6. apply modify_inv in H6. destruct H6 as [_ ->].
  split_bind E u7 s7 H7. destruct u7.
  apply status_msg_empty_ok in H7. destruct H7 as (Hsh & Hup & Hst & Hcf).
  simpl in Hst, Hcf. rewrite Hs5 in Hst. rewrite Hc5 in Hcf.
  unfold _window, button_ok_state, bind, get, modify in E.
  inversion E; subst s; simpl.
  split; [now rewrite Hcf|]. split; [now rewrite Hcf|].
  split; [reflexivity|]. split; [now rewrite andb_false_r|].
  split; [exact Hst|]. split; [exact Hcf|]. split; [exact Hsh|exact Hup].
Qed.

End Construction.

Section ConstructionTheorems.

Context {C : Collaborators}.

(** X5.  A construction that returns leaves a window whose two fields hold
    the saved text and picture, whose list is empty, whose OK button is
    disabled whatever the saved settings are, whose counters are zero,
    whose status bar shows these statistics and whose gate has been
    evaluated for the saved key and toggle; the settings are untouched. *)
Theorem constructed_window (c : CONF.t) (w : World) (s : State) :
  __init__ (startup c w) = (Ok tt, s) ->
  text (self s) = CONF.text c /\ picture (self s) = CONF.picture c /\
  paths_list (self s) = [] /\ buttons (self s) = false /\
  stats (self s) = mkStats 0 0 0 /\ conf s = c /\
  shows_stats s /\ up_to_date s.
Proof. apply init_ok. Qed.

(** X6.  The construction returns exactly when the two collaborators it
    may call return: the update check, which runs when updates are enabled
    on the update platform, and [validate_key], which runs, after the
    update check, when the optimize toggle is on. *)
Theorem construction_returns_iff (c : CONF.t) (w : World) :
  (exists s, __init__ (startup c w) = (Ok tt, s)) <->
  (CONF.update c && WINDOWS = true ->
   exists w', updater_check __version__ w = (Ok tt, w')) /\
  (CONF.optimize c = true ->
   exists b w',
     validate_key (CONF.tinify_key c) (world_after_update c w) = (Ok b, w')).
Proof.
  unfold __init__, _check_for_update, _status_bar, _status_msg, statistics_msg,
    use_optimization, refresh_gate, evaluate_gate, showMessage, _window,
    button_ok_state, try_except, call, bind, get, modify, ret, raise,
    world_after_update, startup.
  simpl.
  destruct (CONF.update c); destruct WINDOWS; simpl;
    try (destruct (updater_check __version__ w) as [[[]|e] w1]; simpl);
    try (destruct (truthy (TR_get "UPDATE_ERROR" [])); simpl);
    destruct (CONF.optimize c); simpl;
    try (destruct (validate_key (CONF.tinify_key c) _) as [[[]|e2] w2]; simpl);
    (split;
     [ intros [s E]; try discriminate E; split; intros; try discriminate; eauto
     | intros [H1 H2];
       try (destruct (H1 eq_refl) as (? & ?); discriminate);
       try (destruct (H2 eq_refl) as (? & ? & ?); discriminate);
       eauto ]).
Qed.

End ConstructionTheorems.

(** ** The button and the rows across a session *)

Section ButtonAndRows.

Context {C : Collaborators}.

Lemma dropEvent_button urls : respects (state_keeps button_needs_rows) (dropEvent urls).
Proof.
  intros s r s' E _. rewrite dropEvent_eq in E.
  unfold button_ok_state, bind, get, modify in E. inversion E; subst.
  unfold button_needs_rows. simpl. rewrite andb_true_iff, Nat.ltb_lt.
  intros [_ Hl] Hnil. rewrite Hnil in Hl. simpl in Hl. lia.
Qed.

Lemma process_all_button : respects (state_keeps button_needs_rows) _process_all.
Proof.
  intros s r s' E Hs. unfold button_needs_rows in *.
  pose proof E as Ho. apply process_all_outcome in Ho. destruct Ho
    as [(_ & _ & A & B & _)|[(_ & _ & _ & B & _)|(_ & _ & A & B & _)]].
  - rewrite A, B. exact Hs.
  - rewrite B. discriminate.
  - rewrite A, B. exact Hs.
Qed.

Lemma handle_button e : respects (state_keeps button_needs_rows) (handle e).
Proof.
  destruct e as [urls| |v|v|path|c|]; simpl.
  - apply dropEvent_button.
  - intros s r s'. unfold bind, get. destruct (buttons (self s)).
    + apply process_all_button.
    + intros E. inversion E. apply state_keeps_refl.
  - apply respects_modify. intros s H. exact H.
  - apply respects_modify. intros s H. exact H.
  - unfold _select_one_file. destruct (truthy path).
    + intros s r s' E. inversion E. intros H. exact H.
    + apply respects_ret, state_keeps_refl.
  - apply respects_modify. intros s H. exact H.
  - apply respects_ret, state_keeps_refl.
Qed.

(** X7.  After a construction that returned, and after any events since,
    an enabled OK button means the list has rows: a click on OK never
    starts a batch on an empty list. *)
Theorem enabled_button_has_rows
    (c : CONF.t) (w : World) (s0 : State) (evs : list UIEvent) :
  __init__ (startup c w) = (Ok tt, s0) ->
  let s := snd (session evs s0) in
  buttons (self s) = true -> paths_list (self s) <> [].
Proof.
  intros E s. apply init_ok in E. destruct E as (_ & _ & _ & Hb & _).
  subst s. destruct (session evs s0) as [r s] eqn:Es. simpl.
  assert (Hk : respects (state_keeps button_needs_rows) (session evs))
    by (apply session_respects;
        [apply state_keeps_refl|apply state_keeps_trans|apply handle_button]).
  apply (Hk _ _ _ Es). unfold button_needs_rows. rewrite Hb. discriminate.
Qed.

End ButtonAndRows.

(** ** Drops *)

Section Drops.

Context {C : Collaborators}.

Lemma drop_urls_length (urls items : list string) :
  (List.length items <= List.length (drop_urls urls items)
   <= List.length items + List.length urls)%nat.
Proof.
  revert items. induction urls as [|u rest IH]; intros items; simpl; [lia|].
  destruct (exists_ items u).
  - specialize (IH items). lia.
  - specialize (IH (addItem u items)). unfold addItem in *.
    assert (Hl : List.length (sorted_insert u items) = S (List.length items)).
    { clear IH. induction items as [|it more IHm]; simpl; [reflexivity|].
      destruct (item_lt it u); simpl; now rewrite ?IHm. }
    rewrite Hl in IH. lia.
Qed.

(** X10.  After a drop the rows are, as a set, the rows before and the
    dropped paths: no row is lost, every dropped path is found by
    [exists], and nothing else appears; the list grows by at most the
    number of dropped paths. *)
Theorem rows_after_drop (s : State) (urls : list string) :
  let items := paths_list (self s) in
  let items' := paths_list (self (snd (dropEvent urls s))) in
  (forall path, In path items' <-> In path urls \/ In path items) /\
  (forall path, In path urls -> exists_ items' path = true) /\
  (List.length items <= List.length items' <= List.length items + List.length urls)%nat.
Proof.
  intros items items'. subst items items'. rewrite dropEvent_eq.
  change (paths_list (self (snd (button_ok_state ?s0))))
    with (paths_list (self s0)). simpl.
  split; [|split].
  - intros path. apply drop_urls_In.
  - intros path H. apply exists_In, drop_urls_In. now left.
  - apply drop_urls_length.
Qed.

(** X11.  After a drop the OK button is enabled exactly when the text or
    the picture field is non-empty and there is a row to work on, an old
    one or a dropped one. *)
Theorem button_after_drop (s : State) (urls : list string) :
  let s' := snd (dropEvent urls s) in
  buttons (self s') = true <->
  (text (self s) <> "" \/ picture (self s) <> "") /\
  (urls <> [] \/ paths_list (self s) <> []).
Proof.
  intros s'. subst s'. rewrite dropEvent_eq.
  unfold button_ok_state, bind, get, modify. simpl.
  rewrite andb_true_iff, truthy_str_or, Nat.ltb_lt.
  pose proof (drop_urls_length urls (paths_list (self s))) as Hl.
  assert (Hrows : (0 < List.length (drop_urls urls (paths_list (self s))))%nat
                  <-> urls <> [] \/ paths_list (self s) <> []).
  { split.
    - intros H. destruct urls as [|u rest]; [|left; discriminate].
      right. simpl in H. destruct (paths_list (self s)); [simpl in H; lia|discriminate].
    - intros [H|H].
      + destruct urls as [|u rest]; [congruence|].
        assert (Hin : In u (drop_urls (u :: rest) (paths_list (self s))))
          by (apply drop_urls_In; left; now left).
        destruct (drop_urls (u :: rest) (paths_list (self s)));
          [contradiction|simpl; lia].
      + destruct (paths_list (self s)); [congruence|simpl in Hl; lia]. }
  rewrite Hrows. reflexivity.
Qed.

End Drops.

(** ** Counters and status bar *)

Section Accounting.

Context {C : Collaborators}.

(** X12.  [count] is incremented before the sizes are read (lines
    260-262).  When the size of the original cannot be read, the exception
    leaves the loop body with the file counted and no byte added; when the
    size of the output cannot be read, the original's bytes have been added
    to [size_before] and nothing to [size_after]. *)
Theorem unreadable_size_leaves_count_ahead
    (o n p : Path) (s s1 : State) (e : exn) :
  optimize_step n s = (Ok p, s1) ->
  (forall w',
     st_size o (world s1) = (Raise e, w') ->
     exists s',
       loop_body o (Some n) s = (Raise e, s') /\
       stats (self s') = add_count (stats (self s))) /\
  (forall a w1 w',
     st_size o (world s1) = (Ok a, w1) ->
     st_size p w1 = (Raise e, w') ->
     exists s',
       loop_body o (Some n) s = (Raise e, s') /\
       stats (self s') = add_size_before a (add_count (stats (self s)))).
Proof.
  intros Hstep. pose proof Hstep as Hst. apply optimize_step_stats in Hst.
  unfold stats_kept in Hst. split.
  - intros w' Ho. eexists. split.
    + rewrite loop_body_unfold. erewrite bind_ok by exact Hstep.
      unfold update_stats, account, bind, modify, call. simpl.
      rewrite Ho. reflexivity.
    + simpl. now rewrite Hst.
  - intros a w1 w' Ho Hp. eexists. split.
    + rewrite loop_body_unfold. erewrite bind_ok by exact Hstep.
      unfold update_stats, account, bind, modify, call. simpl.
      rewrite Ho. simpl. rewrite Hp. reflexivity.
    + simpl. now rewrite Hst.
Qed.

Lemma shows_here s b : kept_on_return shows_stats s b s.
Proof. now intros _ H. Qed.

Lemma shows_then s1 s2 s3 b :
  kept_on_return shows_stats s1 true s2 ->
  kept_on_return shows_stats s2 b s3 ->
  kept_on_return shows_stats s1 b s3.
Proof. unfold kept_on_return. auto. Qed.

(** A loop body that returns has brought the status bar up to date. *)
Lemma loop_body_shows o n : observes (kept_on_return shows_stats) (loop_body o n).
Proof.
  intros s r s' E Hr Hs. destruct r as [[]|e]; [|discriminate Hr].
  destruct n as [n|]; [|inversion E; subst; exact Hs].
  rewrite loop_body_unfold in E. split_bind E p s1 H1.
  split_bind E u s2 H2. unfold account in E.
  split_bind E a s3 H3. split_bind E u4 s4 H4.
  split_bind E b s5 H5. split_bind E u6 s6 H6.
  split_bind E u7 s7 H7. destruct u7.
  apply status_msg_empty_ok in H7. destruct H7 as (Hsh & _).
  apply call_inv in E. destruct E as (w & _ & ->). exact Hsh.
Qed.

Lemma process_all_shows : observes (kept_on_return shows_stats) _process_all.
Proof.
  pose proof shows_here. pose proof shows_then.
  assert (forall paths txt pic,
             observes (kept_on_return shows_stats)
                      (for_each_watermarked paths txt pic)).
  { intros paths txt pic s r s' E. revert E. unfold for_each_watermarked.
    apply observes_for_loop; try assumption;
      try (intros; intros _ Hs; exact Hs).
    apply loop_body_shows. }
  unfold _process_all, button_ok_state.
  repeat observe_step; intros _ Hs; exact Hs.
Qed.

Lemma handle_shows e : observes (kept_on_return shows_stats) (handle e).
Proof.
  pose proof shows_here. pose proof shows_then. pose proof process_all_shows.
  destruct e as [urls| |v|v|path|c|]; simpl;
    unfold dropEvent, button_ok_state, _select_one_file;
    repeat observe_step; intros _ Hs; exact Hs.
Qed.

Lemma session_shows evs : observes (kept_on_return shows_stats) (session evs).
Proof.
  induction evs as [|e rest IH]; simpl.
  - apply observes_ret, shows_here.
  - apply observes_bind; [apply shows_then|apply handle_shows|intros _; exact IH].
Qed.

(** X13.  After a construction that returned and events that were all
    handled without an exception, the status bar shows the statistics as
    they are: the message starts with the text built from the current
    counters. *)
Theorem status_bar_shows_current_stats
    (c : CONF.t) (w : World) (s0 s : State) (evs : list UIEvent) :
  __init__ (startup c w) = (Ok tt, s0) ->
  session evs s0 = (Ok tt, s) ->
  exists suffix,
    status_bar (self s) =
    Some (String.append (stats_text (stats (self s))) suffix).
Proof.
  intros Ei Es. apply init_ok in Ei. destruct Ei as (_ & _ & _ & _ & _ & _ & Hsh & _).
  apply session_shows in Es. exact (Es eq_refl Hsh).
Qed.

(** X14.  A cancelled file dialog changes nothing.  A chosen picture is
    written to the field and to [CONF.picture], and it is the picture the
    next batch hands to [apply_watermarks], with the text field and the
    rows: the batch is the loop over the generator
    [apply_watermarks rows text path], and the call is logged with the same
    arguments. *)
Theorem chosen_picture_reaches_batch (s : State) (path : string) :
  _select_one_file "" s = (Ok tt, s) /\
  (path <> "" ->
   paths_list (self s) <> [] ->
   let s1 := snd (_select_one_file path s) in
   let rows := map mkPath (paths_list (self s)) in
   let txt := text (self s) in
   picture (self s1) = path /\ CONF.picture (conf s1) = path /\
   _process_all s1 =
   match for_loop (apply_watermarks rows txt path (world s))
                  (logged (EvApplyWatermarks rows txt path)
                     (with_conf (CONF.set_picture path)
                        (with_conf (CONF.set_text txt) s1))) with
   | (Ok _, s2) => button_ok_state (with_self (set_paths_list []) s2)
   | (Raise e, s2) => (Raise e, s2)
   end /\
   exists rest,
     calls (snd (_process_all s1)) =
     calls s ++ EvApplyWatermarks rows txt path :: rest).
Proof.
  split; [reflexivity|]. intros Hp Hrows s1 rows txt.
  apply truthy_iff in Hp.
  assert (E1 : s1 = with_conf (CONF.set_picture path)
                      (with_self (set_picture path) s)).
  { subst s1. unfold _select_one_file. rewrite Hp. reflexivity. }
  rewrite E1. split; [reflexivity|]. split; [reflexivity|].
  split.
  - apply (process_all_nonempty
             (with_conf (CONF.set_picture path) (with_self (set_picture path) s))).
    exact Hrows.
  - apply (process_all_first_call
             (with_conf (CONF.set_picture path) (with_self (set_picture path) s))).
    exact Hrows.
Qed.

End Accounting.

(** ** What a batch touches, and what [count] counts *)

Section Outputs.

Context {C : Collaborators}.

Lemma loop_body_touches o n :
  respects (calls_only (touches_only n)) (loop_body o (Some n)).
Proof.
  assert (respects (calls_only (touches_only n)) use_optimization)
    by (apply use_optimization_calls_in; now intros []).
  assert (forall p, respects (calls_only (touches_only n)) (account o p))
    by (intros p; apply account_calls_in; simpl; auto; now intros []).
  pose proof (calls_only_refl (touches_only n)) as Hr.
  pose proof (@calls_only_trans _ (touches_only n)) as Ht.
  rewrite loop_body_unfold. unfold optimize_step, update_stats.
  frame_with Hr Ht;
    first [now apply calls_only_same | now apply calls_only_logged].
Qed.

Lemma for_loop_touches step : forall s r s',
  for_loop step s = (r, s') ->
  exists d, calls s' = calls s ++ d /\ only_outputs_touched d.
Proof.
  induction step as [w|e w|o n w next IH]; intros s r s' E; simpl in E.
  - inversion E; subst. exists []. simpl. rewrite app_nil_r.
    split; [reflexivity|]. intros p [[]|[]].
  - inversion E; subst. exists []. simpl. rewrite app_nil_r.
    split; [reflexivity|]. intros p [[]|[]].
  - set (s0 := with_world w (logged (EvYield o n) s)) in E.
    assert (Hbody : forall r1 s1, loop_body o n s0 = (r1, s1) ->
              exists db, calls s1 = calls s0 ++ db /\
                forall p, In (EvOptimize p) db \/ In (EvUnlink p) db ->
                          n = Some p).
    { intros r1 s1 Eb. destruct n as [n|].
      - apply loop_body_touches in Eb. destruct Eb as (db & Ec & Fb).
        exists db. split; [exact Ec|]. rewrite Forall_forall in Fb.
        intros p [Hp|Hp]; apply Fb in Hp; simpl in Hp; now subst.
      - inversion Eb; subst. exists []. rewrite app_nil_r.
        split; [reflexivity|]. intros p [[]|[]]. }
    destruct (loop_body o n s0) as [r1 s1] eqn:Eb.
    destruct (Hbody _ _ eq_refl) as (db & Ec & Hb). simpl in Ec.
    destruct r1 as [[]|e1].
    + destruct (IH _ _ _ _ E) as (d & Ed & Hd).
      exists ([EvYield o n] ++ db ++ d).
      split; [rewrite Ed, Ec; now rewrite <- !app_assoc|].
      intros p Hp.
      assert (Hcase : (In (EvOptimize p) db \/ In (EvUnlink p) db) \/
                      (In (EvOptimize p) d \/ In (EvUnlink p) d)).
      { destruct Hp as [Hp|Hp]; simpl in Hp; destruct Hp as [Hp|Hp];
          try discriminate Hp; apply in_app_or in Hp; tauto. }
      destruct Hcase as [Hin|Hin].
      * rewrite (Hb p Hin). exists o. now left.
      * destruct (Hd p Hin) as (o' & Ho'). exists o'.
        apply in_or_app. right. apply in_or_app. right. exact Ho'.
    + inversion E; subst. exists ([EvYield o n] ++ db).
      split; [rewrite Ec; now rewrite <- app_assoc|].
      intros p Hp.
      assert (Hin : In (EvOptimize p) db \/ In (EvUnlink p) db).
      { destruct Hp as [Hp|Hp]; simpl in Hp; destruct Hp as [Hp|Hp];
          try discriminate Hp; tauto. }
      rewrite (Hb p Hin). exists o. now left.
Qed.

(** X15.  Whatever a batch optimizes or deletes is a file that
    [apply_watermarks] had yielded as a new path in this batch: the batch
    calls [optimize] and [unlink] on outputs of the watermarking only. *)
Theorem batch_touches_only_outputs (s : State) :
  exists d,
    calls (snd (_process_all s)) = calls s ++ d /\
    forall p, In (EvOptimize p) d \/ In (EvUnlink p) d ->
              exists o, In (EvYield o (Some p)) d.
Proof.
  destruct (paths_list (self s)) as [|it rest] eqn:Eq.
  - rewrite (process_all_empty s Eq). exists []. simpl. rewrite app_nil_r.
    split; [reflexivity|]. intros p [[]|[]].
  - rewrite process_all_nonempty by congruence. cbv zeta.
    destruct (for_loop _ _) as [r1 s1] eqn:El.
    apply for_loop_touches in El. destruct El as (d & Ed & Hd).
    simpl in Ed. rewrite <- app_assoc in Ed.
    match type of Ed with
    | _ = _ ++ ?l => exists l
    end.
    split; [destruct r1 as [[]|e]; exact Ed|].
    intros p Hp.
    assert (Hin : In (EvOptimize p) d \/ In (EvUnlink p) d).
    { destruct Hp as [Hp|Hp]; simpl in Hp; destruct Hp as [Hp|Hp];
        try discriminate Hp; tauto. }
    destruct (Hd p Hin) as (o & Ho). exists o. now right.
Qed.

End Outputs.

Section Counting.

Context {C : Collaborators}.

Lemma counted_here s b : counted s b s.
Proof. exists []. rewrite app_nil_r. simpl. repeat split; lia. Qed.

Lemma counted_then s1 s2 s3 b :
  counted s1 true s2 -> counted s2 b s3 -> counted s1 b s3.
Proof.
  intros (d1 & E1 & L1 & Q1) (d2 & E2 & L2 & Q2).
  exists (d1 ++ d2). rewrite produced_app. specialize (Q1 eq_refl).
  split; [rewrite E2, E1; now rewrite app_assoc|]. split; [lia|].
  intros Hb. specialize (Q2 Hb). lia.
Qed.

(** An update that leaves the counters alone and logs nothing. *)
Lemma counted_same s b s' :
  calls s' = calls s -> stats (self s') = stats (self s) -> counted s b s'.
Proof.
  intros Hc Hs. exists []. rewrite app_nil_r, Hs. simpl.
  repeat split; [exact Hc|lia|lia].
Qed.

Lemma process_all_counted : observes counted _process_all.
Proof.
  intros s r s' E. destruct (paths_list (self s)) as [|it rest] eqn:Eq.
  - rewrite (process_all_empty s Eq) in E. inversion E; subst.
    now apply counted_same.
  - rewrite process_all_nonempty in E by congruence.
    destruct (for_loop _ _) as [r1 s1] eqn:El.
    apply for_loop_accounted in El. destruct El as (d & Ed & Hd & _ & Hk).
    simpl in Ed, Hd, Hk. rewrite <- app_assoc in Ed.
    match type of Ed with
    | _ = _ ++ ?l => exists l
    end.
    cbn [app produced]. destruct r1 as [[]|e1].
    + inversion E; subst; simpl. specialize (Hk eq_refl).
      repeat split; [exact Ed|lia|lia].
    + inversion E; subst; simpl. repeat split; [exact Ed|lia|discriminate].
Qed.

Lemma handle_counted e : observes counted (handle e).
Proof.
  pose proof counted_here. pose proof counted_then.
  pose proof process_all_counted.
  destruct e as [urls| |v|v|path|c|]; simpl;
    unfold dropEvent, button_ok_state, _select_one_file;
    repeat observe_step; now apply counted_same.
Qed.

Lemma session_counted evs : observes counted (session evs).
Proof.
  induction evs as [|e rest IH]; simpl.
  - apply observes_ret, counted_here.
  - apply observes_bind;
      [apply counted_then|apply handle_counted|intros _; exact IH].
Qed.

Lemma init_calls : respects (calls_only not_yield) __init__.
Proof.
  assert (forall msg, respects (calls_only not_yield) (_status_msg msg))
    by (intros msg; apply status_msg_calls_in; now intros []).
  pose proof (calls_only_refl not_yield) as Hr.
  pose proof (@calls_only_trans _ not_yield) as Ht.
  unfold __init__, _check_for_update, _status_bar, _window, button_ok_state.
  frame_with Hr Ht;
    first [now apply calls_only_same | now apply calls_only_logged].
Qed.

(** X16.  Over the life of a window, [count] never exceeds the number of
    pairs with a new path that [apply_watermarks] has yielded, and it is
    exactly that number as long as every event was handled without an
    exception. *)
Theorem count_is_number_of_outputs
    (c : CONF.t) (w : World) (s0 s : State) (evs : list UIEvent)
    (r : result unit) :
  __init__ (startup c w) = (Ok tt, s0) ->
  session evs s0 = (r, s) ->
  count (stats (self s)) <= produced (calls s) /\
  (r = Ok tt -> count (stats (self s)) = produced (calls s)).
Proof.
  intros Ei Es. pose proof Ei as Hc. apply init_calls in Hc.
  destruct Hc as (d0 & E0 & F0). simpl in E0.
  apply produced_not_yield in F0.
  apply init_ok in Ei. destruct Ei as (_ & _ & _ & _ & Hst & _).
  apply session_counted in Es. destruct Es as (d & Ed & Hl & Hq).
  rewrite Hst in Hl, Hq. simpl in Hl, Hq.
  rewrite Ed, E0, produced_app, F0.
  split; [lia|]. intros Hr. subst r. specialize (Hq eq_refl). lia.
Qed.

End Counting.

(** * The claims on concrete runs

    The collaborators of [Demo], off the update platform unless said
    otherwise; the files [a.jpg] (1000 bytes) and [c.jpg] (50 bytes) exist,
    [b.png] does not. *)

Section Runs.

#[local] Existing Instance Demo.demo.

Lemma ltb_asym (a b : string) :
  String.ltb a b = true -> String.ltb b a = false.
Proof.
  unfold String.ltb. rewrite (String.compare_antisym a b).
  destruct (String.compare b a); simpl; congruence.
Qed.

Lemma ltb_ge_trans (a b c : string) :
  String.ltb b a = false -> String.ltb c b = false -> String.ltb c a = false.
Proof.
  unfold String.ltb. intros Hba Hcb.
  destruct (String.compare b a) eqn:Eba; [|discriminate|].
  - apply String.compare_eq_iff in Eba. now subst.
  - destruct (String.compare c b) eqn:Ecb; [|discriminate|].
    + apply String.compare_eq_iff in Ecb. subst. now rewrite Eba.
    + assert (Hab : String.compare a b = Lt)
        by (rewrite String.compare_antisym, Eba; reflexivity).
      assert (Hbc : String.compare b c = Lt)
        by (rewrite String.compare_antisym, Ecb; reflexivity).
      apply OrderedTypeEx.String_as_OT.cmp_lt in Hab, Hbc.
      pose proof (OrderedTypeEx.String_as_OT.lt_trans _ _ _ Hab Hbc) as Hac.
      apply OrderedTypeEx.String_as_OT.cmp_lt in Hac.
      unfold OrderedTypeEx.String_as_OT.cmp in Hac.
      now rewrite String.compare_antisym, Hac.
Qed.

(** C10 on a window with an empty list. *)
Lemma process_all_empty_queue_witness :
  exists s',
    @_process_all (Demo.collaborators false) (Demo.state true []) = (Ok tt, s') /\
    CONF.text (conf s') = "sample" /\
    self s' = Demo.window [] /\
    calls s' = [].
Proof.
  destruct (@process_all_empty_queue (Demo.collaborators false)
              (Demo.state true []) eq_refl)
    as (s' & H & Ht & _ & _ & _ & _ & Hs & _ & Hc).
  exists s'. repeat split; assumption.
Defined.

(** C3 on the list [a.jpg], [b.png]: one file watermarked, one skipped. *)
Lemma process_all_clears_queue_witness :
  let s := Demo.state true ["a.jpg"; "b.png"] in
  let s' := snd (@_process_all (Demo.collaborators false) s) in
  paths_list (self s') = [] /\
  buttons (self s') =
    (truthy (str_or (text (self s')) (picture (self s')))
     && (0 <? List.length (paths_list (self s')))%nat)%bool /\
  buttons (self s') = false.
Proof.
  intros s s'.
  apply (@process_all_clears_queue (Demo.collaborators false) s s').
  - discriminate.
  - vm_compute. reflexivity.
Defined.

(** C5 on [a.jpg]: the optimizer returns [a.jpg-w-o], [a.jpg-w] is
    unlinked, and the 505 bytes of [a.jpg-w-o] are added. *)
Lemma optimized_output_is_recorded_witness :
  let s := Demo.after_first_yield in
  let s1 := snd (use_optimization s) in
  let s' := snd (loop_body "a.jpg" (Some "a.jpg-w") s) in
  exists w3 w4 w5 a b d,
    unlink "a.jpg-w" (("a.jpg-w-o", 505%N) :: world s1) = (Ok tt, w3) /\
    st_size "a.jpg" w3 = (Ok a, w4) /\
    st_size "a.jpg-w-o" w4 = (Ok b, w5) /\
    stats (self s') =
      mkStats (count (stats (self s)) + 1)
              (size_before (stats (self s)) + Z.of_N a)
              (size_after (stats (self s)) + Z.of_N b) /\
    calls s' =
      calls s1 ++ [EvOptimize "a.jpg-w"; EvUnlink "a.jpg-w";
                   EvStat "a.jpg"; EvStat "a.jpg-w-o"] ++ d /\
    Forall not_unlink d.
Proof.
  intros s s1 s'.
  apply (@optimized_output_is_recorded Demo.demo "a.jpg" "a.jpg-w" s s1 s'
           (Ok (Some "a.jpg-w-o")) (("a.jpg-w-o", 505%N) :: world s1)).
  - vm_compute. reflexivity.
  - vm_compute. reflexivity.
  - vm_compute. reflexivity.
Defined.

(** C9 on the update platform: the updater has no network. *)
Lemma update_failure_leaves_init_witness :
  exists e' s',
    @__init__ (Demo.collaborators true)
      (@startup (Demo.collaborators true) (Demo.settings false) Demo.files)
    = (Raise e', s') /\
    status_bar (self s') = None.
Proof.
  apply (@update_failure_leaves_init (Demo.collaborators true)
           (Demo.settings false) Demo.files Demo.files
           (CollaboratorError "no network")); reflexivity.
Defined.

(** The same run, evaluated: the exception that leaves [__init__] is the
    [AttributeError] of the missing status bar. *)
Example update_failure_is_attribute_error :
  fst (@__init__ (Demo.collaborators true)
         (@startup (Demo.collaborators true) (Demo.settings false) Demo.files))
  = Raise (AttributeError "status_bar").
Proof. vm_compute. reflexivity. Qed.

(** Off the update platform the same settings give a constructed window. *)
Example init_without_update_check :
  exists s,
    __init__ (startup (Demo.settings false) Demo.files) = (Ok tt, s) /\
    self s = mkWindow (mkStats 0 0 0) (Some false) (Some "valid-key")
               (Some false) (Some "STATISTICS n BYTE") "sample" "" [] false.
Proof. eexists. split; vm_compute; reflexivity. Qed.

(** C7 as stated fails: [c.jpg] is dropped first, [a.jpg] second, and
    [apply_watermarks] receives [a.jpg] first: the call is logged with
    [a.jpg] first, and the generator, which yields its paths in the order
    it received them, yields [a.jpg] first. *)
Lemma paths_handed_out_of_drop_order :
  let s := snd ((__init__;;
                 session [Dropped ["c.jpg"]; Dropped ["a.jpg"]; OkClicked])%monad
                  (startup (Demo.settings false) Demo.files)) in
  calls s =
    [EvApplyWatermarks ["a.jpg"; "c.jpg"] "sample" "";
     EvYield "a.jpg" (Some "a.jpg-w"); EvStat "a.jpg"; EvStat "a.jpg-w";
     EvProcessEvents;
     EvYield "c.jpg" (Some "c.jpg-w"); EvStat "c.jpg"; EvStat "c.jpg-w";
     EvProcessEvents] /\
  hd_error (calls s) <> Some (EvApplyWatermarks ["c.jpg"; "a.jpg"] "sample" "") /\
  nth_error (calls s) 1 <> Some (EvYield "c.jpg" (Some "c.jpg-w")).
Proof.
  split; [vm_compute; reflexivity|].
  split; vm_compute; discriminate.
Qed.

(** C7 as amended, on the same two drops: the rows are [a.jpg], [c.jpg],
    and the batch is the loop over the generator started on them. *)
Lemma rows_handed_in_sorted_order_witness :
  let s1 := snd (session [Dropped ["c.jpg"]; Dropped ["a.jpg"]]
                   (Demo.state false [])) in
  rows_sorted (paths_list (self s1)) /\
  (paths_list (self s1) <> [] ->
   let rows := map mkPath (paths_list (self s1)) in
   let txt := text (self s1) in
   let pic := picture (self s1) in
   _process_all s1 =
   match for_loop (apply_watermarks rows txt pic (world s1))
                  (logged (EvApplyWatermarks rows txt pic)
                     (with_conf (CONF.set_picture pic)
                        (with_conf (CONF.set_text txt) s1))) with
   | (Ok _, s2) => button_ok_state (with_self (set_paths_list []) s2)
   | (Raise e, s2) => (Raise e, s2)
   end) /\
  (paths_list (self s1) <> [] ->
   exists rest,
     calls (snd (_process_all s1)) =
     calls s1 ++
     EvApplyWatermarks (map mkPath (paths_list (self s1)))
                       (text (self s1)) (picture (self s1)) :: rest).
Proof.
  apply (@rows_handed_in_sorted_order Demo.demo (Demo.state false [])
           [Dropped ["c.jpg"]; Dropped ["a.jpg"]] ltb_asym ltb_ge_trans).
  constructor.
Defined.

(** C2 on the list [a.jpg], [b.png]: the generator yields a new path for
    [a.jpg] and none for [b.png], and [count] grows by one. *)
Lemma skipped_files_add_nothing_witness :
  let s := Demo.state false ["a.jpg"; "b.png"] in
  let s' := snd (_process_all s) in
  exists d,
    calls s' = calls s ++ d /\
    In (EvYield "b.png" None) d /\
    produced d = 1 /\
    count (stats (self s')) = count (stats (self s)) + produced d.
Proof.
  intros s s'.
  destruct (proj2 (proj2 (@skipped_files_add_nothing Demo.demo)) s (Ok tt) s')
    as (d & Ed & _ & _ & Hk); [vm_compute; reflexivity|].
  exists d. split; [exact Ed|].
  assert (Hd : d = calls s') by exact (eq_sym Ed).
  split; [rewrite Hd; vm_compute; tauto|].
  split; [rewrite Hd; vm_compute; reflexivity|].
  exact (Hk eq_refl).
Defined.

(** C4 on a second drop of [a.jpg]. *)
Lemma dropped_paths_stay_unique_witness :
  let s := Demo.state false ["a.jpg"] in
  exists s',
    dropEvent ["a.jpg"] s = (Ok tt, s') /\ paths_list (self s') = ["a.jpg"].
Proof.
  intros s.
  apply (proj1 (@dropped_paths_stay_unique Demo.demo) s ["a.jpg"]).
  constructor; [simpl; tauto|constructor].
Defined.

(** C6 with the toggle off: three reads, the key changed before each. *)
Lemma gate_recomputed_on_change_witness :
  let s := Demo.state false [] in
  exists s',
    gate_reads ["valid-key"; "other-key"; "valid-key"] s = (Ok tt, s') /\
    calls s' = calls s /\ world s' = world s /\
    CONF.optimize (conf s') = false.
Proof.
  intros s.
  apply (proj2 (proj2 (@gate_recomputed_on_change Demo.demo))
           ["valid-key"; "other-key"; "valid-key"] s).
  reflexivity.
Defined.

(** With the toggle on, the first read validates the key and the second is
    served from the cache. *)
Example gate_validates_once :
  let s := Demo.state true [] in
  calls (snd ((use_optimization;; use_optimization)%monad s))
  = [EvValidateKey "valid-key"].
Proof. vm_compute. reflexivity. Qed.

(** C1 from the construction of the window.  With the text [sample]
    saved, a drop of [a.jpg] enables the button, and emptying the fields
    leaves it enabled; with nothing saved, the drop leaves the button
    disabled, and choosing [logo.png] leaves it disabled though the list
    has a row. *)
Lemma button_stale_after_edit_witness :
  (let s := snd ((__init__;; session [Dropped ["a.jpg"]])%monad
                   (startup (Demo.settings false) Demo.files)) in
   let s' := snd (session [TextEdited ""; PictureEdited ""] s) in
   buttons (self s') = true /\ text (self s') = "" /\ picture (self s') = "" /\
   paths_list (self s') = paths_list (self s)) /\
  (let s := snd ((__init__;; session [Dropped ["a.jpg"]])%monad
                   (startup (CONF.mk "" "" false "valid-key" true) Demo.files)) in
   let s' := snd (handle (FileChosen "logo.png") s) in
   buttons (self s') = false /\ picture (self s') = "logo.png" /\
   paths_list (self s') = paths_list (self s)).
Proof.
  split.
  - intros s.
    apply (proj1 (proj2 (@button_stale_after_edit Demo.demo s "logo.png"))).
    vm_compute. reflexivity.
  - intros s.
    apply (proj2 (proj2 (@button_stale_after_edit Demo.demo s "logo.png"))).
    + vm_compute. reflexivity.
    + discriminate.
Defined.

(** The same run with a click on OK: the button is still enabled, and the
    batch hands [apply_watermarks] an empty text and an empty picture. *)
Example batch_without_watermark :
  let s := snd ((__init__;;
                 session [Dropped ["a.jpg"]; TextEdited ""; OkClicked])%monad
                  (startup (Demo.settings false) Demo.files)) in
  calls s =
    [EvApplyWatermarks ["a.jpg"] "" "";
     EvYield "a.jpg" (Some "a.jpg-w"); EvStat "a.jpg"; EvStat "a.jpg-w";
     EvProcessEvents].
Proof. vm_compute. reflexivity. Qed.

End Runs.

(** * The further properties on concrete runs *)

Section FurtherRuns.

#[local] Existing Instance Demo.demo.

(** X1 after a drop, the saved toggle being on. *)
Lemma gate_true_only_with_toggle_on_witness :
  let s := snd ((__init__;; session [Dropped ["a.jpg"]])%monad
                  (startup (Demo.settings true) Demo.files)) in
  use_optimization s = (Ok true, s) /\ CONF.optimize (conf s) = true.
Proof.
  intros s. split; [vm_compute; reflexivity|].
  apply (@gate_true_only_with_toggle_on Demo.demo (Demo.settings true)
           Demo.files [Dropped ["a.jpg"]] s).
  vm_compute. reflexivity.
Defined.

(** X2 on the pair [a.jpg], [a.jpg-w] with the toggle off: the two sizes
    are read and nothing else is called. *)
Lemma file_with_toggle_off_is_plain_witness :
  let s := @mkState Demo.demo (Demo.window ["a.jpg"]) (Demo.settings false)
             (("a.jpg-w", 1010%N) :: Demo.files) [] in
  let s' := snd (before_pump "a.jpg" "a.jpg-w" s) in
  calls s' = [EvStat "a.jpg"; EvStat "a.jpg-w"] /\ calls_only is_plain s s'.
Proof.
  intros s s'. split; [vm_compute; reflexivity|].
  apply (@file_with_toggle_off_is_plain Demo.demo "a.jpg" "a.jpg-w" s
           (fst (@before_pump Demo.demo "a.jpg" "a.jpg-w" s)) s').
  - intros H. vm_compute in H. discriminate H.
  - reflexivity.
  - vm_compute. reflexivity.
Defined.

(** X3 without network: the gate was true for [old-key], the key is now
    [valid-key], and the read after the failed one still says true. *)
Lemma failed_validation_leaves_old_value_witness :
  exists s1,
    @use_optimization Offline.collaborators (Offline.state [])
    = (Raise (CollaboratorError "no network"), s1) /\
    calls s1 = [EvValidateKey "valid-key"] /\
    _old_key (self s1) = Some "valid-key" /\
    @use_optimization Offline.collaborators s1 = (Ok true, s1).
Proof.
  apply (@failed_validation_leaves_old_value Offline.collaborators
           (Offline.state []) true (CollaboratorError "no network") Demo.files).
  - reflexivity.
  - reflexivity.
  - intros (_ & Hk & _). vm_compute in Hk. discriminate Hk.
  - reflexivity.
Defined.

(** X5 off the update platform. *)
Lemma constructed_window_witness :
  let s := snd (__init__ (startup (Demo.settings false) Demo.files)) in
  text (self s) = "sample" /\ picture (self s) = "" /\
  paths_list (self s) = [] /\ buttons (self s) = false /\
  stats (self s) = mkStats 0 0 0 /\ conf s = Demo.settings false /\
  shows_stats s /\ up_to_date s.
Proof.
  intros s.
  apply (@constructed_window Demo.demo (Demo.settings false) Demo.files s).
  vm_compute. reflexivity.
Defined.

(** X7 after a drop: the button is enabled and there is a row. *)
Lemma enabled_button_has_rows_witness :
  let s0 := snd (__init__ (startup (Demo.settings false) Demo.files)) in
  let s := snd (session [Dropped ["a.jpg"]] s0) in
  buttons (self s) = true /\ paths_list (self s) <> [].
Proof.
  intros s0 s. split; [vm_compute; reflexivity|].
  apply (@enabled_button_has_rows Demo.demo (Demo.settings false) Demo.files
           s0 [Dropped ["a.jpg"]]).
  - vm_compute. reflexivity.
  - vm_compute. reflexivity.
Defined.

(** X12 on a pair whose original does not exist. *)
Lemma unreadable_size_leaves_count_ahead_witness :
  let s := Demo.state false ["a.jpg"] in
  exists s',
    loop_body "missing.jpg" (Some "a.jpg") s
    = (Raise (CollaboratorError "FileNotFoundError"), s') /\
    stats (self s') = mkStats 1 0 0.
Proof.
  intros s.
  apply (proj1 (@unreadable_size_leaves_count_ahead Demo.demo
                  "missing.jpg" "a.jpg" "a.jpg" s
                  (snd (@optimize_step Demo.demo "a.jpg" s))
                  (CollaboratorError "FileNotFoundError") eq_refl)
               Demo.files).
  reflexivity.
Defined.

(** X13 after a batch over [a.jpg] and [b.png]. *)
Lemma status_bar_shows_current_stats_witness :
  let s0 := snd (__init__ (startup (Demo.settings false) Demo.files)) in
  let s := snd (session [Dropped ["a.jpg"; "b.png"]; OkClicked] s0) in
  exists suffix,
    status_bar (self s) =
    Some (String.append (stats_text (stats (self s))) suffix).
Proof.
  intros s0 s.
  apply (@status_bar_shows_current_stats Demo.demo (Demo.settings false)
           Demo.files s0 s [Dropped ["a.jpg"; "b.png"]; OkClicked]).
  - vm_compute. reflexivity.
  - vm_compute. reflexivity.
Defined.

(** X16 after the same batch: one output, counted once. *)
Lemma count_is_number_of_outputs_witness :
  let s0 := snd (__init__ (startup (Demo.settings false) Demo.files)) in
  let s := snd (session [Dropped ["a.jpg"; "b.png"]; OkClicked] s0) in
  count (stats (self s)) <= produced (calls s) /\
  (Ok tt = Ok tt -> count (stats (self s)) = produced (calls s)).
Proof.
  intros s0 s.
  apply (@count_is_number_of_outputs Demo.demo (Demo.settings false)
           Demo.files s0 s [Dropped ["a.jpg"; "b.png"]; OkClicked] (Ok tt)).
  - vm_compute. reflexivity.
  - vm_compute. reflexivity.
Defined.

(** X15 on a batch with the toggle on: the one file unlinked is an
    output; the key is validated for the first output and the gate is
    served from the cache after that. *)
Example batch_with_two_outputs :
  let s := Demo.state true ["a.jpg"; "c.jpg"] in
  calls (snd (_process_all s)) =
  [EvApplyWatermarks ["a.jpg"; "c.jpg"] "sample" "";
   EvYield "a.jpg" (Some "a.jpg-w"); EvValidateKey "valid-key";
   EvOptimize "a.jpg-w"; EvUnlink "a.jpg-w";
   EvStat "a.jpg"; EvStat "a.jpg-w-o"; EvProcessEvents;
   EvYield "c.jpg" (Some "c.jpg-w"); EvOptimize "c.jpg-w";
   EvStat "c.jpg"; EvStat "c.jpg-w"; EvProcessEvents].
Proof. vm_compute. reflexivity. Qed.

(** X4 on the pair [a.jpg], [a.jpg-w] with the toggle on and a gate never
    evaluated: two reads, one validation. *)
Lemma file_validates_key_at_most_once_witness :
  let s := Demo.after_first_yield in
  exists d,
    calls (snd (before_pump "a.jpg" "a.jpg-w" s)) = calls s ++ d /\
    validations d = 1%nat.
Proof.
  intros s.
  destruct (@file_validates_key_at_most_once Demo.demo "a.jpg" "a.jpg-w" s)
    as (d & Ed & _ & _).
  exists d. split; [exact Ed|].
  assert (Hd : d = calls (snd (before_pump "a.jpg" "a.jpg-w" s)))
    by exact (eq_sym Ed).
  rewrite Hd. vm_compute. reflexivity.
Defined.

(** X14 on a chosen picture [logo.png]. *)
Lemma chosen_picture_reaches_batch_witness :
  let s := Demo.state false ["a.jpg"] in
  let s1 := snd (_select_one_file "logo.png" s) in
  let rows := map mkPath (paths_list (self s)) in
  let txt := text (self s) in
  picture (self s1) = "logo.png" /\ CONF.picture (conf s1) = "logo.png" /\
  _process_all s1 =
  match for_loop (apply_watermarks rows txt "logo.png" (world s))
                 (logged (EvApplyWatermarks rows txt "logo.png")
                    (with_conf (CONF.set_picture "logo.png")
                       (with_conf (CONF.set_text txt) s1))) with
  | (Ok _, s2) => button_ok_state (with_self (set_paths_list []) s2)
  | (Raise e, s2) => (Raise e, s2)
  end /\
  exists rest,
    calls (snd (_process_all s1)) =
    calls s ++ EvApplyWatermarks ["a.jpg"] "sample" "logo.png" :: rest.
Proof.
  intros s.
  apply (proj2 (@chosen_picture_reaches_batch Demo.demo s "logo.png")).
  - discriminate.
  - discriminate.
Defined.

End FurtherRuns.
